(** * Key-event decoding of the [keyboard] package

    A shallow embedding of the escape-sequence decoder and of the frame
    assembler of [keyboard_common.go] / the POSIX half of the package:
    [parse_escape_sequence], [extract_event] and [inputEventsProducer].

    Bytes are [Byte.byte], buffers and Go strings are [list byte], the
    [Key] and [rune] fields are integers in [Z] with the width of their Go
    types written out where a conversion can wrap.  A send on the
    [input_comm] channel is recorded in the list of events sent so far. *)

From Stdlib Require Import ZArith List Lia Bool Arith.
From Stdlib.Strings Require Import Byte.
Import ListNotations.

Local Open Scope Z_scope.

(** ** Bytes *)

(** The numeric value of a byte, as Go's [Key(b)] or [rune(b)] sees it. *)
Definition byte_val (b : byte) : Z := Z.of_N (Byte.to_N b).

(** The byte of a value in [0, 255]; anything else is mapped to 0. *)
Definition byte_of_Z (z : Z) : byte :=
  match Byte.of_N (Z.to_N z) with
  | Some b => b
  | None => x00
  end.

(** ** The data model: [Key], [keyEvent], [input_event] *)

(** [type Key uint16] *)
Definition Key : Type := Z.

(** Conversion of a Go [int] to [uint16]: the low 16 bits. *)
Definition uint16 (z : Z) : Z := z mod 65536.

(** The errors that travel through the pipeline come from [syscall.Read];
    a Go [error] value is [nil] ([None]) or one of them. *)
Inductive error : Type :=
| Errno (code : Z).

Record keyEvent : Type := mkKeyEvent {
  key : Key;           (* One of Key* constants *)
  rune : Z;            (* A unicode character *)
  err : option error   (* Error in case if input failed *)
}.

Record input_event : Type := mkInputEvent {
  data : list byte;
  ierr : option error
}.

(** Key constants: [KeyF1 Key = 0xFFFF - iota] and the following ones. *)
Definition KeyF1 : Key := 0xFFFF - 0.
Definition KeyF2 : Key := 0xFFFF - 1.
Definition KeyF3 : Key := 0xFFFF - 2.
Definition KeyF4 : Key := 0xFFFF - 3.
Definition KeyF5 : Key := 0xFFFF - 4.
Definition KeyF6 : Key := 0xFFFF - 5.
Definition KeyF7 : Key := 0xFFFF - 6.
Definition KeyF8 : Key := 0xFFFF - 7.
Definition KeyF9 : Key := 0xFFFF - 8.
Definition KeyF10 : Key := 0xFFFF - 9.
Definition KeyF11 : Key := 0xFFFF - 10.
Definition KeyF12 : Key := 0xFFFF - 11.
Definition KeyInsert : Key := 0xFFFF - 12.
Definition KeyDelete : Key := 0xFFFF - 13.
Definition KeyHome : Key := 0xFFFF - 14.
Definition KeyEnd : Key := 0xFFFF - 15.
Definition KeyPgup : Key := 0xFFFF - 16.
Definition KeyPgdn : Key := 0xFFFF - 17.
Definition KeyArrowUp : Key := 0xFFFF - 18.
Definition KeyArrowDown : Key := 0xFFFF - 19.
Definition KeyArrowLeft : Key := 0xFFFF - 20.
Definition KeyArrowRight : Key := 0xFFFF - 21.

(** The control keys the decoder names, and [KeyCtrlC] of the spec's test. *)
Definition KeyCtrlTilde : Key := 0x00.
Definition KeyCtrlC : Key := 0x03.
Definition KeyEsc : Key := 0x1B.
Definition KeySpace : Key := 0x20.
Definition KeyBackspace2 : Key := 0x7F.

(** The events the code builds: the zero value of the struct, and the
    composite literals [keyEvent{key: k}], [keyEvent{rune: r}] and
    [keyEvent{err: e}], whose other fields are zero. *)
Definition zero_event : keyEvent := mkKeyEvent 0 0 None.
Definition key_event (k : Key) : keyEvent := mkKeyEvent k 0 None.
Definition rune_event (r : Z) : keyEvent := mkKeyEvent 0 r None.
Definition err_event (e : error) : keyEvent := mkKeyEvent 0 0 (Some e).

(** ** Go's [strings.HasPrefix] *)

Module strings.

(** [HasPrefix(s, prefix)], that is
    [len(s) >= len(prefix) && s[:len(prefix)] == prefix], byte by byte. *)
Fixpoint HasPrefix (s prefix : list byte) {struct prefix} : bool :=
  match prefix with
  | [] => true
  | p :: prefix' =>
    match s with
    | [] => false
    | c :: s' => Byte.eqb c p && HasPrefix s' prefix'
    end
  end.

End strings.

(** ** Go's [unicode/utf8.DecodeRune]

    The decoder is the standard library's, not this package's; it is
    transcribed here from the library: the classification of the first
    byte (the library's 256-entry table [first], written as its ranges),
    the accept ranges of the second byte, and the assembling of the value
    with masks and shifts.  The library selects between the byte and
    [RuneError] in the one-byte cases with a mask; here it is written as
    a conditional. *)

Module utf8.

Definition RuneError : Z := 0xFFFD.

Definition locb : Z := 0x80.
Definition hicb : Z := 0xBF.

Definition maskx : Z := 0x3F.
Definition mask2 : Z := 0x1F.
Definition mask3 : Z := 0x0F.
Definition mask4 : Z := 0x07.

(** First nibble: index into [acceptRanges] (or F for the one-byte
    cases); second nibble: the length of the encoding. *)
Definition xx : Z := 0xF1. (* invalid: size 1 *)
Definition as_ : Z := 0xF0. (* ASCII: size 1 *)
Definition s1 : Z := 0x02. (* accept 0, size 2 *)
Definition s2 : Z := 0x13. (* accept 1, size 3 *)
Definition s3 : Z := 0x03. (* accept 0, size 3 *)
Definition s4 : Z := 0x23. (* accept 2, size 3 *)
Definition s5 : Z := 0x34. (* accept 3, size 4 *)
Definition s6 : Z := 0x04. (* accept 0, size 4 *)
Definition s7 : Z := 0x44. (* accept 4, size 4 *)

(** [first[p0]]: information about the first byte of a sequence. *)
Definition first (p0 : Z) : Z :=
  if p0 <? 0x80 then as_          (* 0x00-0x7F *)
  else if p0 <? 0xC2 then xx      (* 0x80-0xC1 *)
  else if p0 <? 0xE0 then s1      (* 0xC2-0xDF *)
  else if p0 =? 0xE0 then s2
  else if p0 <? 0xED then s3      (* 0xE1-0xEC *)
  else if p0 =? 0xED then s4
  else if p0 <? 0xF0 then s3      (* 0xEE-0xEF *)
  else if p0 =? 0xF0 then s5
  else if p0 <? 0xF4 then s6      (* 0xF1-0xF3 *)
  else if p0 =? 0xF4 then s7
  else xx.                        (* 0xF5-0xFF *)

(** [acceptRanges[i]]: lowest and highest value of the second byte. *)
Definition acceptRanges (i : Z) : Z * Z :=
  match i with
  | 0 => (locb, hicb)
  | 1 => (0xA0, hicb)
  | 2 => (locb, 0x9F)
  | 3 => (0x90, hicb)
  | 4 => (locb, 0x8F)
  | _ => (0, 0)
  end.

(** [DecodeRune(p)]: the first rune of [p] and its width; [(RuneError, 0)]
    on an empty [p], [(RuneError, 1)] on an invalid or incomplete
    encoding. *)
Definition DecodeRune (p : list byte) : Z * nat :=
  match p with
  | [] => (RuneError, 0%nat)
  | p0 :: t0 =>
    let x := first (byte_val p0) in
    if as_ <=? x then
      (if x =? xx then RuneError else byte_val p0, 1%nat)
    else
      let sz := Z.land x 7 in
      let accept := acceptRanges (Z.shiftr x 4) in
      if Z.of_nat (length p) <? sz then (RuneError, 1%nat)
      else
        match t0 with
        | [] => (RuneError, 1%nat)
        | p1 :: t1 =>
          let b1 := byte_val p1 in
          if (b1 <? fst accept) || (snd accept <? b1) then (RuneError, 1%nat)
          else if sz <=? 2 then
            (Z.lor (Z.shiftl (Z.land (byte_val p0) mask2) 6)
                   (Z.land b1 maskx), 2%nat)
          else
            match t1 with
            | [] => (RuneError, 1%nat)
            | p2 :: t2 =>
              let b2 := byte_val p2 in
              if (b2 <? locb) || (hicb <? b2) then (RuneError, 1%nat)
              else if sz <=? 3 then
                (Z.lor (Z.lor (Z.shiftl (Z.land (byte_val p0) mask3) 12)
                              (Z.shiftl (Z.land b1 maskx) 6))
                       (Z.land b2 maskx), 3%nat)
              else
                match t2 with
                | [] => (RuneError, 1%nat)
                | p3 :: _ =>
                  let b3 := byte_val p3 in
                  if (b3 <? locb) || (hicb <? b3) then (RuneError, 1%nat)
                  else
                    (Z.lor (Z.lor (Z.lor
                       (Z.shiftl (Z.land (byte_val p0) mask4) 18)
                       (Z.shiftl (Z.land b1 maskx) 12))
                       (Z.shiftl (Z.land b2 maskx) 6))
                       (Z.land b3 maskx), 4%nat)
                end
            end
        end
  end.

End utf8.

(** ** The UTF-8 encoding of a scalar value (RFC 3629)

    What "a valid UTF-8 scalar value of n bytes at the head" means, stated
    without the decoder: the head of the buffer is [utf8_encoding r] for a
    Unicode scalar value [r]. *)

Definition is_scalar (r : Z) : Prop :=
  0 <= r <= 0x10FFFF /\ ~ (0xD800 <= r <= 0xDFFF).

Definition utf8_encoding (r : Z) : list byte :=
  if r <? 0x80 then [byte_of_Z r]
  else if r <? 0x800 then
    [byte_of_Z (0xC0 + r / 64); byte_of_Z (0x80 + r mod 64)]
  else if r <? 0x10000 then
    [byte_of_Z (0xE0 + r / 4096); byte_of_Z (0x80 + (r / 64) mod 64);
     byte_of_Z (0x80 + r mod 64)]
  else
    [byte_of_Z (0xF0 + r / 262144); byte_of_Z (0x80 + (r / 4096) mod 64);
     byte_of_Z (0x80 + (r / 64) mod 64); byte_of_Z (0x80 + r mod 64)].

(** The well-formed UTF-8 byte sequences (The Unicode Standard, table
    3-7): [wf_head p r n] when [p] starts with the [n] bytes of a
    well-formed sequence whose value is [r]. *)
Definition continuation (b : byte) : Prop := 0x80 <= byte_val b <= 0xBF.

Inductive wf_head : list byte -> Z -> nat -> Prop :=
| wf_head1 (b0 : byte) (rest : list byte) :
    byte_val b0 <= 0x7F ->
    wf_head (b0 :: rest) (byte_val b0) 1
| wf_head2 (b0 b1 : byte) (rest : list byte) :
    0xC2 <= byte_val b0 <= 0xDF ->
    continuation b1 ->
    wf_head (b0 :: b1 :: rest)
      ((byte_val b0 - 0xC0) * 64 + (byte_val b1 - 0x80)) 2
| wf_head3 (b0 b1 b2 : byte) (rest : list byte) :
    0xE0 <= byte_val b0 <= 0xEF ->
    continuation b1 -> continuation b2 ->
    (byte_val b0 = 0xE0 -> 0xA0 <= byte_val b1) ->
    (byte_val b0 = 0xED -> byte_val b1 <= 0x9F) ->
    wf_head (b0 :: b1 :: b2 :: rest)
      ((byte_val b0 - 0xE0) * 4096 + (byte_val b1 - 0x80) * 64
       + (byte_val b2 - 0x80)) 3
| wf_head4 (b0 b1 b2 b3 : byte) (rest : list byte) :
    0xF0 <= byte_val b0 <= 0xF4 ->
    continuation b1 -> continuation b2 -> continuation b3 ->
    (byte_val b0 = 0xF0 -> 0x90 <= byte_val b1) ->
    (byte_val b0 = 0xF4 -> byte_val b1 <= 0x8F) ->
    wf_head (b0 :: b1 :: b2 :: b3 :: rest)
      ((byte_val b0 - 0xF0) * 262144 + (byte_val b1 - 0x80) * 4096
       + (byte_val b2 - 0x80) * 64 + (byte_val b3 - 0x80)) 4.

(** ** The decoder: [parse_escape_sequence] and [extract_event] *)

(** The loop [for i, key := range keys] of [parse_escape_sequence], from
    index [i] on.  The first entry that is a prefix of the buffer ends the
    loop, with [event.key = Key(0xFFFF - i)] (an [int] converted to
    [uint16]) and [size = len(key)]; without one, the result is
    [(0, event)] with the zero event. *)
Fixpoint parse_escape_sequence_from (keys : list (list byte)) (i : nat)
  (bufstr : list byte) : nat * keyEvent :=
  match keys with
  | [] => (0%nat, zero_event)
  | k :: keys' =>
    if strings.HasPrefix bufstr k then
      (length k, mkKeyEvent (uint16 (0xFFFF - Z.of_nat i)) 0 None)
    else parse_escape_sequence_from keys' (S i) bufstr
  end.

Definition parse_escape_sequence (keys : list (list byte)) (buf : list byte)
  : nat * keyEvent :=
  parse_escape_sequence_from keys 0 buf.

(** [extract_event(inbuf)]: the returned size and the events sent on
    [input_comm], in order. *)
Definition extract_event (keys : list (list byte)) (inbuf : list byte)
  : nat * list keyEvent :=
  match inbuf with
  | [] => (0%nat, [])
  | b0 :: _ =>
    if byte_val b0 =? 0x1B then
      (* possible escape sequence *)
      let (size, event) := parse_escape_sequence keys inbuf in
      if negb (size =? 0)%nat then (size, [event])
      else
        (* it's not escape sequence, then it's Esc event *)
        (1%nat, [key_event KeyEsc])
    else if (byte_val b0 <=? KeySpace) || (byte_val b0 =? KeyBackspace2) then
      (* a functional key *)
      (1%nat, [key_event (byte_val b0)])
    else
      (* the only possible option is utf8 rune *)
      let (r, n) := utf8.DecodeRune inbuf in
      if negb (r =? utf8.RuneError) then (n, [rune_event r])
      else (0%nat, [])
  end.

(** ** The frame assembler: [inputEventsProducer] *)

(** Go's slice expressions and [copy], on the contents of the slice.  A
    slice expression out of range panics: [None]. *)
Definition slice_from (s : list byte) (lo : nat) : option (list byte) :=
  if (lo <=? length s)%nat then Some (skipn lo s) else None.

(** [s[:hi]], where [hi] is a Go [int]; the code only ever asks for
    [hi <= len(s)], so the capacity beyond the length plays no part. *)
Definition slice_to (s : list byte) (hi : Z) : option (list byte) :=
  if (0 <=? hi) && (hi <=? Z.of_nat (length s))
  then Some (firstn (Z.to_nat hi) s)
  else None.

(** [copy(dst, src)]: the contents of [dst] afterwards.  It copies
    [min(len(dst), len(src))] elements and is correct for overlapping
    slices, so the source is the contents [src] had before the call. *)
Definition copy (dst src : list byte) : list byte :=
  let n := Nat.min (length dst) (length src) in
  firstn n src ++ skipn n dst.

(** [copy(inbuf, inbuf[size:]); inbuf = inbuf[:len(inbuf)-size]] *)
Definition consume (buf : list byte) (size : nat) : option (list byte) :=
  match slice_from buf size with
  | None => None
  | Some src =>
    slice_to (copy buf src) (Z.of_nat (length buf) - Z.of_nat size)
  end.

(** The state of the goroutine: the package variable [inbuf], the events
    sent on [input_comm] so far, and whether the function has returned. *)
Record producer : Type := mkProducer {
  inbuf : list byte;
  input_comm : list keyEvent;
  returned : bool
}.

(** What the [select] of the loop receives: an [input_event] from
    [input_buf], or the quit signal. *)
Inductive message : Type :=
| Recv (ev : input_event)
| Quit.

(** [size := extract_event(inbuf); if size != 0 { ... }]: one extraction
    on the buffer, and the removal of what it consumed.  [None] is a
    panic of a slice expression. *)
Definition extract_and_consume (keys : list (list byte)) (buf : list byte)
  (sent : list keyEvent) : option producer :=
  let (size, evs) := extract_event keys buf in
  if negb (size =? 0)%nat then
    match consume buf size with
    | Some buf' => Some (mkProducer buf' (sent ++ evs) false)
    | None => None
    end
  else Some (mkProducer buf (sent ++ evs) false).

(** One iteration of the [for { select { ... } }] loop. *)
Definition on_message (keys : list (list byte)) (st : producer) (m : message)
  : option producer :=
  match m with
  | Recv ev =>
    match ierr ev with
    | Some e =>
      Some (mkProducer (inbuf st) (input_comm st ++ [err_event e]) true)
    | None =>
      extract_and_consume keys (inbuf st ++ data ev) (input_comm st)
    end
  | Quit => Some (mkProducer (inbuf st) (input_comm st) true)
  end.

(** The loop over the messages that arrive; it stops at the first
    iteration that returns, and the later messages are never received. *)
Fixpoint producer_loop (keys : list (list byte)) (st : producer)
  (msgs : list message) : option producer :=
  match msgs with
  | [] => Some st
  | m :: msgs' =>
    match on_message keys st m with
    | None => None
    | Some st' =>
      if returned st' then Some st' else producer_loop keys st' msgs'
    end
  end.

(** [inputEventsProducer()], started with [inbuf0] in the package
    variable [inbuf] and receiving [msgs]. *)
Definition inputEventsProducer (keys : list (list byte)) (inbuf0 : list byte)
  (msgs : list message) : option producer :=
  match extract_and_consume keys inbuf0 [] with
  | None => None
  | Some st => producer_loop keys st msgs
  end.

(** Feeding byte chunks: each chunk arrives as an [input_event] without
    error. *)
Definition chunk (bs : list byte) : message := Recv (mkInputEvent bs None).

Definition feed (keys : list (list byte)) (chunks : list (list byte))
  : option producer :=
  inputEventsProducer keys [] (map chunk chunks).

(** ** Example data *)

(** A key table in the order of the key constants ([KeyF1] ...
    [KeyArrowRight]) with the sequences of an rxvt-like terminal;
    ["\x1b[A"] sits at index 18, the index of [KeyArrowUp]. *)
Definition ESC : byte := x1b.
Definition rxvt_keys : list (list byte) :=
  [ [ESC; x5b; x31; x31; x7e]; [ESC; x5b; x31; x32; x7e];
    [ESC; x5b; x31; x33; x7e]; [ESC; x5b; x31; x34; x7e];
    [ESC; x5b; x31; x35; x7e]; [ESC; x5b; x31; x37; x7e];
    [ESC; x5b; x31; x38; x7e]; [ESC; x5b; x31; x39; x7e];
    [ESC; x5b; x32; x30; x7e]; [ESC; x5b; x32; x31; x7e];
    [ESC; x5b; x32; x33; x7e]; [ESC; x5b; x32; x34; x7e];
    [ESC; x5b; x32; x7e]; [ESC; x5b; x33; x7e];
    [ESC; x5b; x37; x7e]; [ESC; x5b; x38; x7e];
    [ESC; x5b; x35; x7e]; [ESC; x5b; x36; x7e];
    [ESC; x5b; x41]; [ESC; x5b; x42]; [ESC; x5b; x44]; [ESC; x5b; x43] ].

(** A table with an entry that is a prefix of a later one. *)
Definition overlapping_keys : list (list byte) :=
  [ [ESC; x5b]; [ESC; x5b; x41] ].

(** ** The shapes of a key event

    The three variants of the specification's [KeyEvent], read on the
    struct: a symbolic-key event has rune 0 and a nil error (its key may
    be any [Key], [KeyCtrlSpace = 0] included); a character event has a
    non-zero rune, key 0 and a nil error; a failure event has a non-nil
    error, key 0 and rune 0. *)

Definition is_nil (e : option error) : bool :=
  match e with
  | None => true
  | Some _ => false
  end.

Definition symbolic_key_shape (e : keyEvent) : bool :=
  (rune e =? 0) && is_nil (err e).

Definition character_shape (e : keyEvent) : bool :=
  negb (rune e =? 0) && (key e =? 0) && is_nil (err e).

Definition failure_shape (e : keyEvent) : bool :=
  negb (is_nil (err e)) && (key e =? 0) && (rune e =? 0).

(** The number of variants an event has the shape of. *)
Definition shapes (e : keyEvent) : nat :=
  (Nat.b2n (symbolic_key_shape e) + Nat.b2n (character_shape e)
   + Nat.b2n (failure_shape e))%nat.

(** The number of fields of the struct that are not zero. *)
Definition populated_fields (e : keyEvent) : nat :=
  (Nat.b2n (negb (key e =? 0)%Z) + Nat.b2n (negb (rune e =? 0)%Z)
   + Nat.b2n (negb (is_nil (err e))))%nat.

Definition one_variant (e : keyEvent) : Prop :=
  shapes e = 1%nat /\ (populated_fields e <= 1)%nat.

(** Whether the buffer begins with the Escape byte. *)
Definition starts_with_esc (buf : list byte) : bool :=
  match buf with
  | [] => false
  | b :: _ => byte_val b =? 0x1B
  end.

(** ** Statements of the specification that are compared with the code *)

(** Chunk-boundary independence: feeding the chunks one at a time sends
    the same events as feeding their concatenation as one chunk. *)
Definition chunk_boundary_independence (keys : list (list byte))
  (chunks : list (list byte)) : Prop :=
  option_map input_comm (feed keys chunks) =
  option_map input_comm (feed keys [concat chunks]).

(** Some table entry is an extension of the buffer. *)
Definition extension_could_match (keys : list (list byte)) (buf : list byte)
  : Prop :=
  exists k, In k keys /\ strings.HasPrefix k buf = true.

(** The standalone Esc is emitted only when no extension of the buffer
    could match; otherwise nothing is emitted. *)
Definition standalone_esc_waits (keys : list (list byte)) (rest : list byte)
  : Prop :=
  Forall (fun k => strings.HasPrefix (ESC :: rest) k = false) keys ->
  (extension_could_match keys (ESC :: rest) ->
   extract_event keys (ESC :: rest) = (0%nat, [])) /\
  (~ extension_could_match keys (ESC :: rest) ->
   extract_event keys (ESC :: rest) = (1%nat, [key_event KeyEsc])).

(** The longest entry that is a prefix of the buffer is selected, the
    first one in table order among the longest. *)
Definition longest_match_selected (keys : list (list byte)) (rest : list byte)
  : Prop :=
  (exists k, In k keys /\ strings.HasPrefix (ESC :: rest) k = true) ->
  exists i k,
    nth_error keys i = Some k /\
    strings.HasPrefix (ESC :: rest) k = true /\
    (forall k', In k' keys -> strings.HasPrefix (ESC :: rest) k' = true ->
                (length k' <= length k)%nat) /\
    (forall j k', (j < i)%nat -> nth_error keys j = Some k' ->
                  strings.HasPrefix (ESC :: rest) k' = true ->
                  (length k' < length k)%nat) /\
    extract_event keys (ESC :: rest) =
    (length k, [key_event (uint16 (0xFFFF - Z.of_nat i))]).

(** Every scalar value whose encoding is at the head of the buffer, and
    whose first byte is neither the Escape byte nor a control byte, is
    extracted as a character event. *)
Definition every_scalar_extracted (keys : list (list byte)) (r : Z)
  (rest : list byte) : Prop :=
  is_scalar r -> 0x20 < r -> r <> 0x7F ->
  extract_event keys (utf8_encoding r ++ rest) =
  (length (utf8_encoding r), [rune_event r]).

(** After a chunk has been processed, no further event can be extracted
    from the buffer. *)
Definition extraction_exhausted (keys : list (list byte)) (buf c : list byte)
  : Prop :=
  match on_message keys (mkProducer buf [] false) (chunk c) with
  | Some st => snd (extract_event keys (inbuf st)) = []
  | None => False
  end.

(** ** The function-key constants, in declaration order *)

Definition function_keys : list Key :=
  [ KeyF1; KeyF2; KeyF3; KeyF4; KeyF5; KeyF6; KeyF7; KeyF8; KeyF9; KeyF10;
    KeyF11; KeyF12; KeyInsert; KeyDelete; KeyHome; KeyEnd; KeyPgup; KeyPgdn;
    KeyArrowUp; KeyArrowDown; KeyArrowLeft; KeyArrowRight ].

(** ** Raw mode: the terminal attributes [initConsole] computes

    [initConsole] copies the attributes it read into [tios], clears and
    sets flags in the copy and hands it to [tcsetattr].  The flag words
    are unsigned integers, [x &^= m] is [Z.ldiff x m] and [x |= m] is
    [Z.lor x m].  The constants are those of Go's [syscall] package; their
    values depend on the platform and are taken as a parameter. *)

Record syscall_constants : Type := mkConstants {
  syscall_IGNBRK : Z;
  syscall_BRKINT : Z;
  syscall_PARMRK : Z;
  syscall_ISTRIP : Z;
  syscall_INLCR : Z;
  syscall_IGNCR : Z;
  syscall_ICRNL : Z;
  syscall_IXON : Z;
  syscall_ECHO : Z;
  syscall_ECHONL : Z;
  syscall_ICANON : Z;
  syscall_ISIG : Z;
  syscall_IEXTEN : Z;
  syscall_CSIZE : Z;
  syscall_PARENB : Z;
  syscall_CS8 : Z;
  syscall_VMIN : nat;
  syscall_VTIME : nat
}.

(** The values of the constants on Linux, for the examples. *)
Definition linux_constants : syscall_constants :=
  mkConstants 0x1 0x2 0x8 0x20 0x40 0x80 0x100 0x400
              0x8 0x40 0x2 0x1 0x8000
              0x30 0x100 0x30
              6 5.

(** [syscall.Termios]: the flag words, the control characters [Cc] and
    the fields the code leaves alone. *)
Record syscall_Termios : Type := mkTermios {
  Iflag : Z;
  Oflag : Z;
  Cflag : Z;
  Lflag : Z;
  Line : Z;
  Cc : list Z;
  Ispeed : Z;
  Ospeed : Z
}.

(** [a[i] = v] on an array: the index is a constant that the compiler
    checks against the length, so an index out of range does not occur;
    the model leaves the array as it is there. *)
Definition set_index (a : list Z) (i : nat) (v : Z) : list Z :=
  if (i <? length a)%nat then firstn i a ++ v :: skipn (S i) a else a.

(** The flags cleared in [Iflag], [Lflag] and [Cflag]. *)
Definition iflag_mask (K : syscall_constants) : Z :=
  Z.lor (Z.lor (Z.lor (Z.lor (Z.lor (Z.lor (Z.lor
    (syscall_IGNBRK K) (syscall_BRKINT K)) (syscall_PARMRK K))
    (syscall_ISTRIP K)) (syscall_INLCR K)) (syscall_IGNCR K))
    (syscall_ICRNL K)) (syscall_IXON K).

Definition lflag_mask (K : syscall_constants) : Z :=
  Z.lor (Z.lor (Z.lor (Z.lor
    (syscall_ECHO K) (syscall_ECHONL K)) (syscall_ICANON K))
    (syscall_ISIG K)) (syscall_IEXTEN K).

Definition cflag_mask (K : syscall_constants) : Z :=
  Z.lor (syscall_CSIZE K) (syscall_PARENB K).

(** [tios := orig_tios] and the six assignments that follow it. *)
Definition raw_tios (K : syscall_constants) (orig_tios : syscall_Termios)
  : syscall_Termios :=
  mkTermios
    (Z.ldiff (Iflag orig_tios) (iflag_mask K))
    (Oflag orig_tios)
    (Z.lor (Z.ldiff (Cflag orig_tios) (cflag_mask K)) (syscall_CS8 K))
    (Z.ldiff (Lflag orig_tios) (lflag_mask K))
    (Line orig_tios)
    (set_index (set_index (Cc orig_tios) (syscall_VMIN K) 1)
               (syscall_VTIME K) 0)
    (Ispeed orig_tios)
    (Ospeed orig_tios).

(** The flags of the input and local modes that raw mode turns off. *)
Definition iflags_off (K : syscall_constants) : list Z :=
  [ syscall_IGNBRK K; syscall_BRKINT K; syscall_PARMRK K; syscall_ISTRIP K;
    syscall_INLCR K; syscall_IGNCR K; syscall_ICRNL K; syscall_IXON K ].

Definition lflags_off (K : syscall_constants) : list Z :=
  [ syscall_ECHO K; syscall_ECHONL K; syscall_ICANON K; syscall_ISIG K;
    syscall_IEXTEN K ].

(** An example of cooked-mode attributes on Linux. *)
Definition cooked_tios : syscall_Termios :=
  mkTermios 0x4500 0x5 0xBF 0x8A3B 0
    [3; 28; 127; 21; 4; 0; 1; 0; 17; 19; 26; 0; 18; 15; 23; 22; 0; 0; 0; 0;
     0; 0; 0; 0; 0; 0; 0; 0; 0; 0; 0; 0]
    0xF 0xF.

(** ** The control-key constants

    The second block of key constants, with its aliases; [KeyCtrlTilde],
    [KeyCtrlC], [KeyEsc], [KeySpace] and [KeyBackspace2] are above. *)
Definition KeyCtrl2 : Key := 0x00.
Definition KeyCtrlSpace : Key := 0x00.
Definition KeyCtrlA : Key := 0x01.
Definition KeyCtrlB : Key := 0x02.
Definition KeyCtrlD : Key := 0x04.
Definition KeyCtrlE : Key := 0x05.
Definition KeyCtrlF : Key := 0x06.
Definition KeyCtrlG : Key := 0x07.
Definition KeyBackspace : Key := 0x08.
Definition KeyCtrlH : Key := 0x08.
Definition KeyTab : Key := 0x09.
Definition KeyCtrlI : Key := 0x09.
Definition KeyCtrlJ : Key := 0x0A.
Definition KeyCtrlK : Key := 0x0B.
Definition KeyCtrlL : Key := 0x0C.
Definition KeyEnter : Key := 0x0D.
Definition KeyCtrlM : Key := 0x0D.
Definition KeyCtrlN : Key := 0x0E.
Definition KeyCtrlO : Key := 0x0F.
Definition KeyCtrlP : Key := 0x10.
Definition KeyCtrlQ : Key := 0x11.
Definition KeyCtrlR : Key := 0x12.
Definition KeyCtrlS : Key := 0x13.
Definition KeyCtrlT : Key := 0x14.
Definition KeyCtrlU : Key := 0x15.
Definition KeyCtrlV : Key := 0x16.
Definition KeyCtrlW : Key := 0x17.
Definition KeyCtrlX : Key := 0x18.
Definition KeyCtrlY : Key := 0x19.
Definition KeyCtrlZ : Key := 0x1A.
Definition KeyCtrlLsqBracket : Key := 0x1B.
Definition KeyCtrl3 : Key := 0x1B.
Definition KeyCtrl4 : Key := 0x1C.
Definition KeyCtrlBackslash : Key := 0x1C.
Definition KeyCtrl5 : Key := 0x1D.
Definition KeyCtrlRsqBracket : Key := 0x1D.
Definition KeyCtrl6 : Key := 0x1E.
Definition KeyCtrl7 : Key := 0x1F.
Definition KeyCtrlSlash : Key := 0x1F.
Definition KeyCtrlUnderscore : Key := 0x1F.
Definition KeyCtrl8 : Key := 0x7F.

Definition control_keys : list Key :=
  [ KeyCtrlTilde; KeyCtrl2; KeyCtrlSpace; KeyCtrlA; KeyCtrlB; KeyCtrlC;
    KeyCtrlD; KeyCtrlE; KeyCtrlF; KeyCtrlG; KeyBackspace; KeyCtrlH; KeyTab;
    KeyCtrlI; KeyCtrlJ; KeyCtrlK; KeyCtrlL; KeyEnter; KeyCtrlM; KeyCtrlN;
    KeyCtrlO; KeyCtrlP; KeyCtrlQ; KeyCtrlR; KeyCtrlS; KeyCtrlT; KeyCtrlU;
    KeyCtrlV; KeyCtrlW; KeyCtrlX; KeyCtrlY; KeyCtrlZ; KeyEsc;
    KeyCtrlLsqBracket; KeyCtrl3; KeyCtrl4; KeyCtrlBackslash; KeyCtrl5;
    KeyCtrlRsqBracket; KeyCtrl6; KeyCtrl7; KeyCtrlSlash; KeyCtrlUnderscore;
    KeySpace; KeyBackspace2; KeyCtrl8 ].

(** * Properties *)

(** ** Bytes and their values *)

Lemma byte_val_range (b : byte) : 0 <= byte_val b <= 255.
Proof.
  unfold byte_val. pose proof (Byte.to_N_bounded b). lia.
Qed.

Lemma byte_of_Z_val (b : byte) : byte_of_Z (byte_val b) = b.
Proof.
  unfold byte_of_Z, byte_val. rewrite N2Z.id, Byte.of_to_N. reflexivity.
Qed.

Lemma byte_val_of_Z (z : Z) : 0 <= z <= 255 -> byte_val (byte_of_Z z) = z.
Proof.
  intros Hz. unfold byte_of_Z, byte_val.
  destruct (Byte.of_N (Z.to_N z)) as [b|] eqn:E.
  - apply Byte.to_of_N in E. rewrite E. lia.
  - apply Byte.of_N_None_iff in E. lia.
Qed.

Lemma byte_val_inj (a b : byte) : byte_val a = byte_val b -> a = b.
Proof.
  intros H. rewrite <- (byte_of_Z_val a), <- (byte_of_Z_val b), H. reflexivity.
Qed.

Lemma byte_eqb_eq (a b : byte) : Byte.eqb a b = true <-> a = b.
Proof.
  split.
  - apply Byte.byte_dec_bl.
  - apply Byte.byte_dec_lb.
Qed.

(** ** [strings.HasPrefix] is the prefix relation *)

Lemma HasPrefix_app (prefix rest : list byte) :
  strings.HasPrefix (prefix ++ rest) prefix = true.
Proof.
  induction prefix as [|p prefix IH]; simpl.
  - reflexivity.
  - rewrite IH, andb_true_r. apply byte_eqb_eq. reflexivity.
Qed.

Lemma HasPrefix_inv (prefix s : list byte) :
  strings.HasPrefix s prefix = true -> s = prefix ++ skipn (length prefix) s.
Proof.
  revert s. induction prefix as [|p prefix IH]; intros s H.
  - reflexivity.
  - destruct s as [|c s]; simpl in H; [discriminate|].
    apply andb_true_iff in H. destruct H as [Hc Hs].
    apply byte_eqb_eq in Hc. subst c. simpl. f_equal. apply IH, Hs.
Qed.

Lemma HasPrefix_iff (prefix s : list byte) :
  strings.HasPrefix s prefix = true <-> exists rest, s = prefix ++ rest.
Proof.
  split.
  - intros H. eexists. apply HasPrefix_inv, H.
  - intros [rest ->]. apply HasPrefix_app.
Qed.

Lemma HasPrefix_length (prefix s : list byte) :
  strings.HasPrefix s prefix = true -> (length prefix <= length s)%nat.
Proof.
  intros H. apply HasPrefix_iff in H. destruct H as [rest ->].
  rewrite length_app. lia.
Qed.

(** ** [parse_escape_sequence]: the first entry that is a prefix *)

Lemma parse_from_size_le (keys : list (list byte)) (i : nat) (buf : list byte) :
  (fst (parse_escape_sequence_from keys i buf) <= length buf)%nat.
Proof.
  revert i. induction keys as [|k keys IH]; intros i;
    cbn [parse_escape_sequence_from].
  - cbn [fst]. lia.
  - destruct (strings.HasPrefix buf k) eqn:E; cbn [fst snd].
    + apply HasPrefix_length, E.
    + apply IH.
Qed.

Lemma parse_from_no_match (keys : list (list byte)) (i : nat)
  (buf : list byte) :
  Forall (fun k => strings.HasPrefix buf k = false) keys ->
  parse_escape_sequence_from keys i buf = (0%nat, zero_event).
Proof.
  intros H. revert i. induction H as [|k keys Hk _ IH]; intros i;
    cbn [parse_escape_sequence_from].
  - reflexivity.
  - rewrite Hk. apply IH.
Qed.

Lemma parse_from_first_match (pre post : list (list byte)) (k : list byte)
  (i : nat) (buf : list byte) :
  Forall (fun k' => strings.HasPrefix buf k' = false) pre ->
  strings.HasPrefix buf k = true ->
  parse_escape_sequence_from (pre ++ k :: post) i buf =
  (length k, mkKeyEvent (uint16 (0xFFFF - Z.of_nat (i + length pre))) 0 None).
Proof.
  intros Hpre Hk. revert i.
  induction Hpre as [|k' pre Hk' _ IH]; intros i;
    cbn [parse_escape_sequence_from app length].
  - rewrite Hk, Nat.add_0_r. reflexivity.
  - rewrite Hk', IH, Nat.add_succ_r. reflexivity.
Qed.

(** The event [parse_escape_sequence] returns is always a key event. *)
Lemma parse_from_event (keys : list (list byte)) (i : nat) (buf : list byte) :
  rune (snd (parse_escape_sequence_from keys i buf)) = 0 /\
  err (snd (parse_escape_sequence_from keys i buf)) = None.
Proof.
  revert i. induction keys as [|k keys IH]; intros i;
    cbn [parse_escape_sequence_from].
  - split; reflexivity.
  - destruct (strings.HasPrefix buf k); [split; reflexivity | apply IH].
Qed.

(** ** [utf8.DecodeRune] and the UTF-8 encoding

    The decoder's masks and shifts are first turned into arithmetic; it is
    then shown to accept exactly the well-formed sequences of table 3-7,
    which are exactly the encodings of the scalar values. *)

Ltac dm := Z.div_mod_to_equations; lia.

Lemma lor_add_low (hi lo k : Z) :
  0 <= k -> 0 <= lo < 2 ^ k -> hi mod 2 ^ k = 0 -> Z.lor hi lo = hi + lo.
Proof.
  intros Hk Hlo Hhi.
  assert (Hland : Z.land hi lo = 0).
  { apply Z.bits_inj'. intros n Hn.
    rewrite Z.land_spec, Z.bits_0.
    destruct (Z.lt_ge_cases n k) as [Hlt|Hge].
    - rewrite <- (Z.mod_pow2_bits_low hi k n) by lia.
      rewrite Hhi, Z.bits_0. reflexivity.
    - rewrite <- (Z.mod_small lo (2 ^ k)) by lia.
      rewrite Z.mod_pow2_bits_high by lia. apply andb_false_r. }
  rewrite <- Z.lxor_lor by assumption.
  symmetry. apply Z.add_nocarry_lxor. assumption.
Qed.

Lemma maskx_mod (v : Z) : Z.land v utf8.maskx = v mod 64.
Proof.
  change utf8.maskx with (Z.ones 6). rewrite Z.land_ones by lia. reflexivity.
Qed.
Lemma mask2_mod (v : Z) : Z.land v utf8.mask2 = v mod 32.
Proof.
  change utf8.mask2 with (Z.ones 5). rewrite Z.land_ones by lia. reflexivity.
Qed.
Lemma mask3_mod (v : Z) : Z.land v utf8.mask3 = v mod 16.
Proof.
  change utf8.mask3 with (Z.ones 4). rewrite Z.land_ones by lia. reflexivity.
Qed.
Lemma mask4_mod (v : Z) : Z.land v utf8.mask4 = v mod 8.
Proof.
  change utf8.mask4 with (Z.ones 3). rewrite Z.land_ones by lia. reflexivity.
Qed.

Lemma assemble2 (v0 v1 : Z) :
  0xC0 <= v0 <= 0xDF -> 0x80 <= v1 <= 0xBF ->
  Z.lor (Z.shiftl (Z.land v0 utf8.mask2) 6) (Z.land v1 utf8.maskx) =
  (v0 - 0xC0) * 64 + (v1 - 0x80).
Proof.
  intros H0 H1. rewrite mask2_mod, maskx_mod, Z.shiftl_mul_pow2 by lia.
  change (2 ^ 6) with 64.
  replace (v0 mod 32) with (v0 - 0xC0) by (Z.div_mod_to_equations; lia).
  replace (v1 mod 64) with (v1 - 0x80) by (Z.div_mod_to_equations; lia).
  apply (lor_add_low _ _ 6); [lia | change (2 ^ 6) with 64; lia |].
  change (2 ^ 6) with 64. Z.div_mod_to_equations; lia.
Qed.

Lemma assemble3 (v0 v1 v2 : Z) :
  0xE0 <= v0 <= 0xEF -> 0x80 <= v1 <= 0xBF -> 0x80 <= v2 <= 0xBF ->
  Z.lor (Z.lor (Z.shiftl (Z.land v0 utf8.mask3) 12)
               (Z.shiftl (Z.land v1 utf8.maskx) 6))
        (Z.land v2 utf8.maskx) =
  (v0 - 0xE0) * 4096 + (v1 - 0x80) * 64 + (v2 - 0x80).
Proof.
  intros H0 H1 H2.
  rewrite mask3_mod, !maskx_mod, !Z.shiftl_mul_pow2 by lia.
  change (2 ^ 12) with 4096. change (2 ^ 6) with 64.
  replace (v0 mod 16) with (v0 - 0xE0) by (Z.div_mod_to_equations; lia).
  replace (v1 mod 64) with (v1 - 0x80) by (Z.div_mod_to_equations; lia).
  replace (v2 mod 64) with (v2 - 0x80) by (Z.div_mod_to_equations; lia).
  rewrite (lor_add_low ((v0 - 0xE0) * 4096) ((v1 - 0x80) * 64) 12);
    [| lia | change (2 ^ 12) with 4096; lia
     | change (2 ^ 12) with 4096; Z.div_mod_to_equations; lia].
  apply (lor_add_low _ _ 6);
    [lia | change (2 ^ 6) with 64; lia
    | change (2 ^ 6) with 64; Z.div_mod_to_equations; lia].
Qed.

Lemma assemble4 (v0 v1 v2 v3 : Z) :
  0xF0 <= v0 <= 0xF7 ->
  0x80 <= v1 <= 0xBF -> 0x80 <= v2 <= 0xBF -> 0x80 <= v3 <= 0xBF ->
  Z.lor (Z.lor (Z.lor (Z.shiftl (Z.land v0 utf8.mask4) 18)
                      (Z.shiftl (Z.land v1 utf8.maskx) 12))
               (Z.shiftl (Z.land v2 utf8.maskx) 6))
        (Z.land v3 utf8.maskx) =
  (v0 - 0xF0) * 262144 + (v1 - 0x80) * 4096 + (v2 - 0x80) * 64 + (v3 - 0x80).
Proof.
  intros H0 H1 H2 H3.
  rewrite mask4_mod, !maskx_mod, !Z.shiftl_mul_pow2 by lia.
  change (2 ^ 18) with 262144. change (2 ^ 12) with 4096.
  change (2 ^ 6) with 64.
  replace (v0 mod 8) with (v0 - 0xF0) by (Z.div_mod_to_equations; lia).
  replace (v1 mod 64) with (v1 - 0x80) by (Z.div_mod_to_equations; lia).
  replace (v2 mod 64) with (v2 - 0x80) by (Z.div_mod_to_equations; lia).
  replace (v3 mod 64) with (v3 - 0x80) by (Z.div_mod_to_equations; lia).
  rewrite (lor_add_low ((v0 - 0xF0) * 262144) ((v1 - 0x80) * 4096) 18);
    [| lia | change (2 ^ 18) with 262144; lia
     | change (2 ^ 18) with 262144; Z.div_mod_to_equations; lia].
  rewrite (lor_add_low _ ((v2 - 0x80) * 64) 12);
    [| lia | change (2 ^ 12) with 4096; lia
     | change (2 ^ 12) with 4096; Z.div_mod_to_equations; lia].
  apply (lor_add_low _ _ 6);
    [lia | change (2 ^ 6) with 64; lia
    | change (2 ^ 6) with 64; Z.div_mod_to_equations; lia].
Qed.

Ltac zcase :=
  match goal with
  | |- context [?a <? ?b] => destruct (Z.ltb_spec a b)
  | |- context [?a <=? ?b] => destruct (Z.leb_spec a b)
  | |- context [?a =? ?b] => destruct (Z.eqb_spec a b)
  end; cbn [length] in *; try (exfalso; lia); cbn [orb andb negb]; cbv iota.

Ltac pick_case :=
  first [ solve [split; [lia | reflexivity]]
        | solve [left; split; [lia | reflexivity]]
        | right; pick_case ].

Lemma first_cases (v : Z) :
  (v < 0x80 /\ utf8.first v = utf8.as_) \/
  (0x80 <= v < 0xC2 /\ utf8.first v = utf8.xx) \/
  (0xC2 <= v < 0xE0 /\ utf8.first v = utf8.s1) \/
  (v = 0xE0 /\ utf8.first v = utf8.s2) \/
  ((0xE1 <= v < 0xED \/ 0xEE <= v < 0xF0) /\ utf8.first v = utf8.s3) \/
  (v = 0xED /\ utf8.first v = utf8.s4) \/
  (v = 0xF0 /\ utf8.first v = utf8.s5) \/
  (0xF1 <= v < 0xF4 /\ utf8.first v = utf8.s6) \/
  (v = 0xF4 /\ utf8.first v = utf8.s7) \/
  (0xF5 <= v /\ utf8.first v = utf8.xx).
Proof.
  unfold utf8.first. repeat zcase; pick_case.
Qed.

Ltac reduce_class c :=
  cbv zeta;
  let t1 := eval vm_compute in (utf8.as_ <=? c) in
  change (utf8.as_ <=? c) with t1;
  let t2 := eval vm_compute in (Z.land c 7) in
  change (Z.land c 7) with t2;
  let t3 := eval vm_compute in (utf8.acceptRanges (Z.shiftr c 4)) in
  change (utf8.acceptRanges (Z.shiftr c 4)) with t3;
  cbn [fst snd]; cbv iota.

Ltac classify v :=
  let HC := fresh "HC" in
  pose proof (first_cases v) as HC;
  decompose [and or] HC; clear HC; try lia;
  match goal with
  | E : utf8.first v = ?c |- _ => rewrite E; clear E; reduce_class c
  end.

Lemma DecodeRune_wf (p : list byte) (r : Z) (n : nat) :
  wf_head p r n -> utf8.DecodeRune p = (r, n).
Proof.
  intros H. destruct H; unfold continuation in *; unfold utf8.DecodeRune.
  - pose proof (byte_val_range b0). classify (byte_val b0).
    reflexivity.
  - classify (byte_val b0). repeat zcase.
    rewrite assemble2 by lia. reflexivity.
  - classify (byte_val b0); unfold utf8.locb, utf8.hicb; repeat zcase;
      rewrite assemble3 by lia; reflexivity.
  - classify (byte_val b0); unfold utf8.locb, utf8.hicb; repeat zcase;
      rewrite assemble4 by lia; reflexivity.
Qed.

Ltac lcase :=
  match goal with
  | |- context [match ?l with [] => _ | _ :: _ => _ end] =>
    destruct l; cbn [length] in *; try (exfalso; lia); cbv iota
  end.

Lemma DecodeRune_cases (p : list byte) :
  (fst (utf8.DecodeRune p) = utf8.RuneError /\
   (snd (utf8.DecodeRune p) <= 1)%nat) \/
  wf_head p (fst (utf8.DecodeRune p)) (snd (utf8.DecodeRune p)).
Proof.
  destruct p as [|p0 t0]; [left; split; [reflexivity | simpl; lia]|].
  pose proof (byte_val_range p0) as R0.
  unfold utf8.DecodeRune.
  classify (byte_val p0); unfold utf8.locb, utf8.hicb;
    repeat first [zcase | lcase]; cbn [fst snd];
    first [ left; split; [reflexivity | lia]
          | right; constructor; unfold continuation; lia
          | right; rewrite assemble2 by lia; constructor;
            unfold continuation; lia
          | right; rewrite assemble3 by lia; constructor;
            unfold continuation; lia
          | right; rewrite assemble4 by lia; constructor;
            unfold continuation; lia ].
Qed.


Lemma wf_head_encoding (p : list byte) (r : Z) (n : nat) :
  wf_head p r n ->
  is_scalar r /\ n = length (utf8_encoding r) /\
  p = utf8_encoding r ++ skipn n p.
Proof.
  intros H. destruct H; unfold continuation in *.
  - pose proof (byte_val_range b0).
    split; [unfold is_scalar; lia|].
    unfold utf8_encoding. repeat zcase.
    rewrite byte_of_Z_val. split; reflexivity.
  - set (r := (byte_val b0 - 192) * 64 + (byte_val b1 - 128)).
    assert (Hr : 0x80 <= r < 0x800) by (subst r; lia).
    split; [unfold is_scalar; lia|].
    unfold utf8_encoding. repeat zcase.
    replace (192 + r / 64) with (byte_val b0) by (subst r; dm).
    replace (128 + r mod 64) with (byte_val b1) by (subst r; dm).
    rewrite !byte_of_Z_val. split; reflexivity.
  - set (r := (byte_val b0 - 224) * 4096 + (byte_val b1 - 128) * 64
              + (byte_val b2 - 128)).
    assert (Hr : 0x800 <= r < 0x10000 /\ ~ (0xD800 <= r <= 0xDFFF))
      by (subst r; lia).
    split; [unfold is_scalar; lia|].
    unfold utf8_encoding. repeat zcase.
    replace (224 + r / 4096) with (byte_val b0) by (subst r; dm).
    replace (128 + (r / 64) mod 64) with (byte_val b1) by (subst r; dm).
    replace (128 + r mod 64) with (byte_val b2) by (subst r; dm).
    rewrite !byte_of_Z_val. split; reflexivity.
  - set (r := (byte_val b0 - 240) * 262144 + (byte_val b1 - 128) * 4096
              + (byte_val b2 - 128) * 64 + (byte_val b3 - 128)).
    assert (Hr : 0x10000 <= r <= 0x10FFFF) by (subst r; lia).
    split; [unfold is_scalar; lia|].
    unfold utf8_encoding. repeat zcase.
    replace (240 + r / 262144) with (byte_val b0) by (subst r; dm).
    replace (128 + (r / 4096) mod 64) with (byte_val b1) by (subst r; dm).
    replace (128 + (r / 64) mod 64) with (byte_val b2) by (subst r; dm).
    replace (128 + r mod 64) with (byte_val b3) by (subst r; dm).
    rewrite !byte_of_Z_val. split; reflexivity.
Qed.

Lemma wf_head_eq (p : list byte) (r r' : Z) (n : nat) :
  wf_head p r' n -> r' = r -> wf_head p r n.
Proof. intros H <-. exact H. Qed.

Lemma encoding_wf_head (r : Z) (rest : list byte) :
  is_scalar r ->
  wf_head (utf8_encoding r ++ rest) r (length (utf8_encoding r)).
Proof.
  intros [Hr Hs]. unfold utf8_encoding. repeat zcase; cbn [app length].
  - eapply wf_head_eq; [apply wf_head1|]; rewrite byte_val_of_Z by lia; lia.
  - eapply wf_head_eq;
      [apply wf_head2; unfold continuation|];
      rewrite ?byte_val_of_Z by dm; dm.
  - eapply wf_head_eq;
      [apply wf_head3; unfold continuation|];
      rewrite ?byte_val_of_Z by dm; dm.
  - eapply wf_head_eq;
      [apply wf_head4; unfold continuation|];
      rewrite ?byte_val_of_Z by dm; dm.
Qed.

Section Decoder.

(** The package variable [keys], the key table of the terminal. *)
Variable keys : list (list byte).

(** ** [extract_event] by the class of the first byte *)

Lemma extract_event_esc (rest : list byte) :
  extract_event keys (ESC :: rest) =
  (if negb (fst (parse_escape_sequence keys (ESC :: rest)) =? 0)%nat
   then (fst (parse_escape_sequence keys (ESC :: rest)),
         [snd (parse_escape_sequence keys (ESC :: rest))])
   else (1%nat, [key_event KeyEsc])).
Proof.
  unfold extract_event. change (byte_val ESC =? 27) with true. cbv iota.
  destruct (parse_escape_sequence keys (ESC :: rest)) as [size event].
  reflexivity.
Qed.

Lemma extract_event_control (b : byte) (rest : list byte) :
  (byte_val b =? 0x1B) = false ->
  (byte_val b <=? KeySpace) || (byte_val b =? KeyBackspace2) = true ->
  extract_event keys (b :: rest) = (1%nat, [key_event (byte_val b)]).
Proof.
  intros He Hc. unfold extract_event. rewrite He, Hc. reflexivity.
Qed.

Lemma extract_event_rune (b : byte) (rest : list byte) :
  (byte_val b =? 0x1B) = false ->
  (byte_val b <=? KeySpace) || (byte_val b =? KeyBackspace2) = false ->
  extract_event keys (b :: rest) =
  (if negb (fst (utf8.DecodeRune (b :: rest)) =? utf8.RuneError)
   then (snd (utf8.DecodeRune (b :: rest)),
         [rune_event (fst (utf8.DecodeRune (b :: rest)))])
   else (0%nat, [])).
Proof.
  intros He Hc. unfold extract_event. rewrite He, Hc.
  destruct (utf8.DecodeRune (b :: rest)) as [r n]. reflexivity.
Qed.

(** A well-formed head other than U+FFFD, not starting with the Escape
    byte or a control byte, is extracted. *)
Lemma extract_event_wf (b : byte) (rest : list byte) (r : Z) (n : nat) :
  (byte_val b =? 0x1B) = false ->
  (byte_val b <=? KeySpace) || (byte_val b =? KeyBackspace2) = false ->
  wf_head (b :: rest) r n -> r <> utf8.RuneError ->
  extract_event keys (b :: rest) = (n, [rune_event r]).
Proof.
  intros He Hc Hwf Hr. rewrite extract_event_rune by assumption.
  rewrite (DecodeRune_wf _ _ _ Hwf). cbn [fst snd].
  destruct (Z.eqb_spec r utf8.RuneError); [contradiction | reflexivity].
Qed.

(** The width [DecodeRune] returns never exceeds the buffer. *)
Lemma wf_head_length (p : list byte) (r : Z) (n : nat) :
  wf_head p r n -> (1 <= n <= length p)%nat.
Proof.
  intros H. destruct H; cbn [length]; lia.
Qed.

Lemma DecodeRune_size_le (p : list byte) :
  (snd (utf8.DecodeRune p) <= length p)%nat.
Proof.
  destruct p as [|p0 t0]; [cbn; lia|].
  destruct (DecodeRune_cases (p0 :: t0)) as [[_ H]|H].
  - cbn [length]. lia.
  - apply wf_head_length in H. lia.
Qed.

(** The size [extract_event] returns never exceeds the buffer, so the
    slice expressions that follow it cannot panic. *)
Lemma extract_event_size_le (buf : list byte) :
  (fst (extract_event keys buf) <= length buf)%nat.
Proof.
  destruct buf as [|b0 rest]; [cbn; lia|].
  unfold extract_event.
  destruct (byte_val b0 =? 27) eqn:He.
  - pose proof (parse_from_size_le keys 0 (b0 :: rest)) as Hp.
    unfold parse_escape_sequence.
    destruct (parse_escape_sequence_from keys 0 (b0 :: rest)) as [size event].
    destruct (negb (size =? 0)%nat); cbn [fst length] in *; lia.
  - destruct ((byte_val b0 <=? KeySpace) || (byte_val b0 =? KeyBackspace2)).
    + cbn [fst length]. lia.
    + pose proof (DecodeRune_size_le (b0 :: rest)) as Hd.
      destruct (utf8.DecodeRune (b0 :: rest)) as [r n].
      destruct (negb (r =? utf8.RuneError)); cbn [fst snd length] in *; lia.
Qed.

(** An extraction sends one event and consumes at least one byte, or
    sends nothing and consumes nothing. *)
Lemma extract_event_cases (buf : list byte) :
  extract_event keys buf = (0%nat, []) \/
  exists n e, extract_event keys buf = (S n, [e]).
Proof.
  destruct buf as [|b0 rest]; [left; reflexivity|].
  unfold extract_event.
  destruct (byte_val b0 =? 27) eqn:He.
  - right. destruct (parse_escape_sequence keys (b0 :: rest)) as [size event].
    destruct size as [|size]; cbn [Nat.eqb negb]; eauto.
  - destruct ((byte_val b0 <=? KeySpace) || (byte_val b0 =? KeyBackspace2)).
    + right. eauto.
    + destruct (DecodeRune_cases (b0 :: rest)) as [[H _]|H].
      * left. destruct (utf8.DecodeRune (b0 :: rest)) as [r n].
        cbn [fst] in H. subst r. reflexivity.
      * apply wf_head_length in H.
        destruct (utf8.DecodeRune (b0 :: rest)) as [r n]. cbn [snd] in H.
        destruct (negb (r =? utf8.RuneError)); [right | left; reflexivity].
        destruct n as [|n]; [lia|]. eauto.
Qed.

(** ** The frame assembler *)

(** Copying the tail of the buffer over its front leaves the tail,
    followed by the last bytes of the old contents. *)
Lemma copy_tail (buf : list byte) (size : nat) :
  (size <= length buf)%nat ->
  copy buf (skipn size buf) =
  skipn size buf ++ skipn (length buf - size) buf.
Proof.
  intros Hle. unfold copy.
  rewrite length_skipn, Nat.min_r by lia.
  rewrite firstn_all2 by (rewrite length_skipn; lia). reflexivity.
Qed.

(** [copy] followed by the reslice removes the front of the buffer. *)
Lemma consume_skipn (buf : list byte) (size : nat) :
  (size <= length buf)%nat -> consume buf size = Some (skipn size buf).
Proof.
  intros Hle. unfold consume, slice_from, slice_to.
  apply Nat.leb_le in Hle as Hb. rewrite Hb, copy_tail by assumption.
  rewrite length_app, !length_skipn.
  replace (Z.of_nat (length buf) - Z.of_nat size)
    with (Z.of_nat (length buf - size)) by lia.
  destruct (Z.leb_spec 0 (Z.of_nat (length buf - size))); [|lia].
  destruct (Z.leb_spec (Z.of_nat (length buf - size))
              (Z.of_nat (length buf - size
                         + (length buf - (length buf - size))))); [|lia].
  cbn [andb]. rewrite Nat2Z.id. f_equal.
  rewrite firstn_app, length_skipn, Nat.sub_diag, firstn_O, app_nil_r.
  apply firstn_all2. rewrite length_skipn. lia.
Qed.

(** One extraction and the removal of its bytes never panics: the
    buffer loses the consumed front and the events are appended. *)
Lemma extract_and_consume_eq (buf : list byte) (sent : list keyEvent) :
  extract_and_consume keys buf sent =
  Some (mkProducer (skipn (fst (extract_event keys buf)) buf)
                   (sent ++ snd (extract_event keys buf)) false).
Proof.
  unfold extract_and_consume.
  pose proof (extract_event_size_le buf) as Hle.
  destruct (extract_event keys buf) as [size evs]. cbn [fst snd] in *.
  destruct size as [|size]; cbn [Nat.eqb negb].
  - reflexivity.
  - rewrite consume_skipn by assumption. reflexivity.
Qed.

Lemma on_message_chunk (st : producer) (c : list byte) :
  on_message keys st (chunk c) =
  Some (mkProducer
          (skipn (fst (extract_event keys (inbuf st ++ c))) (inbuf st ++ c))
          (input_comm st ++ snd (extract_event keys (inbuf st ++ c))) false).
Proof.
  unfold on_message, chunk. cbn [ierr data]. apply extract_and_consume_eq.
Qed.

(** Every iteration succeeds and appends at most one event. *)
Lemma on_message_total (st : producer) (m : message) :
  exists st' more,
    on_message keys st m = Some st' /\
    input_comm st' = input_comm st ++ more /\ (length more <= 1)%nat.
Proof.
  destruct m as [[d [e|]]|].
  - do 2 eexists. split; [reflexivity|]. cbn. split; [reflexivity | cbn; lia].
  - change (Recv (mkInputEvent d None)) with (chunk d).
    rewrite on_message_chunk. do 2 eexists. split; [reflexivity|].
    cbn [input_comm]. split; [reflexivity|].
    destruct (extract_event_cases (inbuf st ++ d)) as [E|[n [e E]]];
      rewrite E; cbn; lia.
  - exists (mkProducer (inbuf st) (input_comm st) true), [].
    cbn. rewrite app_nil_r. auto.
Qed.

(** The loop never panics, and sends at most one event per message. *)
Lemma producer_loop_total (msgs : list message) :
  forall st, exists st' more,
    producer_loop keys st msgs = Some st' /\
    input_comm st' = input_comm st ++ more /\
    (length more <= length msgs)%nat.
Proof.
  induction msgs as [|m msgs IH]; intros st; cbn [producer_loop].
  - exists st, []. rewrite app_nil_r. cbn. auto.
  - destruct (on_message_total st m) as [st1 [more1 [E1 [S1 L1]]]].
    rewrite E1. destruct (returned st1).
    + exists st1, more1. cbn [length]. repeat split; [assumption | lia].
    + destruct (IH st1) as [st2 [more2 [E2 [S2 L2]]]].
      exists st2, (more1 ++ more2). rewrite E2, S2, S1, app_assoc, length_app.
      cbn [length]. repeat split. lia.
Qed.

(** Messages that arrive while the loop is still running are processed
    after the earlier ones. *)
Lemma producer_loop_app (pre post : list message) :
  forall st st',
    producer_loop keys st pre = Some st' -> returned st' = false ->
    producer_loop keys st (pre ++ post) = producer_loop keys st' post.
Proof.
  induction pre as [|m pre IH]; intros st st' Hrun Hret;
    cbn [producer_loop app] in *.
  - injection Hrun as ->. reflexivity.
  - destruct (on_message keys st m) as [st1|]; [|discriminate].
    destruct (returned st1) eqn:R1.
    + injection Hrun as ->. congruence.
    + apply IH; assumption.
Qed.

(** Feeding chunks: the goroutine keeps running, sends at most one event
    per chunk, and the buffer is always what is left of the bytes
    received after a front of them has been consumed. *)
Lemma producer_loop_chunks (chunks : list (list byte)) :
  forall buf sent, exists buf' more consumed,
    producer_loop keys (mkProducer buf sent false) (map chunk chunks) =
    Some (mkProducer buf' (sent ++ more) false) /\
    (length more <= length chunks)%nat /\
    buf ++ concat chunks = consumed ++ buf'.
Proof.
  induction chunks as [|c chunks IH]; intros buf sent;
    cbn [map producer_loop concat].
  - exists buf, [], []. rewrite !app_nil_r. cbn. auto.
  - rewrite on_message_chunk. cbn [returned inbuf input_comm].
    set (n := fst (extract_event keys (buf ++ c))).
    set (evs := snd (extract_event keys (buf ++ c))).
    destruct (IH (skipn n (buf ++ c)) (sent ++ evs))
      as [buf' [more [consumed [E [L C]]]]].
    exists buf', (evs ++ more), (firstn n (buf ++ c) ++ consumed).
    rewrite E, <- !app_assoc. split; [reflexivity|]. split.
    + rewrite length_app. cbn [length].
      assert (length evs <= 1)%nat; [|lia].
      subst evs.
      destruct (extract_event_cases (buf ++ c)) as [X|[k [e X]]];
        rewrite X; cbn; lia.
    + rewrite <- C, !app_assoc. f_equal.
      rewrite firstn_skipn. reflexivity.
Qed.

Lemma feed_eq (chunks : list (list byte)) :
  feed keys chunks =
  producer_loop keys (mkProducer [] [] false) (map chunk chunks).
Proof.
  reflexivity.
Qed.

(** ** Well-formed heads, extensions and prefixes *)

Lemma wf_head_app (p q : list byte) (r : Z) (n : nat) :
  wf_head p r n -> wf_head (p ++ q) r n.
Proof.
  intros H. destruct H; cbn [app]; constructor; assumption.
Qed.

Lemma wf_head_first (p : list byte) (r : Z) (n : nat) :
  wf_head p r n ->
  exists b t, p = b :: t /\
    (byte_val b <= 0x7F /\ r = byte_val b /\ n = 1%nat \/
     0xC2 <= byte_val b /\ 0x80 <= r /\ (2 <= n)%nat).
Proof.
  intros H. destruct H; unfold continuation in *; do 2 eexists;
    (split; [reflexivity|]); [left | right ..]; repeat split; lia.
Qed.

(** A byte above [KeySpace] other than [KeyBackspace2] takes neither the
    escape branch nor the functional-key branch. *)
Lemma rune_branch (b : byte) :
  0x20 < byte_val b -> byte_val b <> 0x7F ->
  (byte_val b =? 0x1B) = false /\
  (byte_val b <=? KeySpace) || (byte_val b =? KeyBackspace2) = false.
Proof.
  intros H1 H2. unfold KeySpace, KeyBackspace2. split.
  - apply Z.eqb_neq. lia.
  - apply orb_false_iff. split; [apply Z.leb_gt | apply Z.eqb_neq]; lia.
Qed.

(** Two encodings that start the same buffer encode the same value. *)
Lemma encoding_prefix_unique (r r' : Z) (rest rest' : list byte) :
  is_scalar r -> is_scalar r' ->
  utf8_encoding r ++ rest = utf8_encoding r' ++ rest' ->
  r = r' /\ rest = rest'.
Proof.
  intros Hr Hr' E.
  pose proof (DecodeRune_wf _ _ _ (encoding_wf_head r rest Hr)) as D.
  pose proof (DecodeRune_wf _ _ _ (encoding_wf_head r' rest' Hr')) as D'.
  rewrite E, D' in D. injection D as -> _.
  split; [reflexivity|]. eapply app_inv_head, E.
Qed.

(** Once an event can be extracted from a buffer that does not start
    with the Escape byte, the same event is extracted from every
    extension of the buffer. *)
Lemma extract_event_extend (p q : list byte) (n : nat) (e : keyEvent) :
  starts_with_esc p = false ->
  extract_event keys p = (S n, [e]) ->
  extract_event keys (p ++ q) = (S n, [e]).
Proof.
  intros He Hx. destruct p as [|b t]; [discriminate|].
  cbn [starts_with_esc] in He. cbn [app].
  destruct ((byte_val b <=? KeySpace) || (byte_val b =? KeyBackspace2)) eqn:Hc.
  - rewrite extract_event_control in Hx |- * by assumption. assumption.
  - rewrite extract_event_rune in Hx by assumption.
    destruct (DecodeRune_cases (b :: t)) as [[H _]|H].
    + rewrite H in Hx. discriminate.
    + destruct (utf8.DecodeRune (b :: t)) as [r m]. cbn [fst snd] in *.
      destruct (Z.eqb_spec r utf8.RuneError); [discriminate|].
      rewrite <- Hx. apply (extract_event_wf b (t ++ q)); try assumption.
      apply (wf_head_app (b :: t) q), H.
Qed.

(** A proper prefix of an encoding yields no event. *)
Lemma extract_event_incomplete (r : Z) (c1 c2 : list byte) :
  is_scalar r -> utf8_encoding r = c1 ++ c2 -> c2 <> [] ->
  extract_event keys c1 = (0%nat, []).
Proof.
  intros Hr E Hc2. destruct c1 as [|b t]; [reflexivity|].
  pose proof (encoding_wf_head r [] Hr) as W.
  rewrite app_nil_r, E in W.
  destruct (wf_head_first _ _ _ W) as [b' [t' [Eb [[_ [_ H1]]|[Hb [_ _]]]]]].
  - exfalso. rewrite length_app in H1.
    destruct c2; [contradiction | cbn [length] in H1; lia].
  - injection Eb as <- _.
    destruct (rune_branch b) as [Hesc Hctl]; [lia | lia |].
    rewrite extract_event_rune by assumption.
    destruct (DecodeRune_cases (b :: t)) as [[H _]|H].
    + rewrite H. reflexivity.
    + destruct (utf8.DecodeRune (b :: t)) as [r' m]. cbn [fst snd] in *.
      destruct (Z.eqb_spec r' utf8.RuneError); [reflexivity|]. exfalso.
      destruct (wf_head_encoding _ _ _ H) as [Hr' [Hm Hp]].
      apply wf_head_length in H.
      assert (X : utf8_encoding r ++ [] =
                  utf8_encoding r' ++ (skipn m (b :: t) ++ c2)).
      { rewrite app_nil_r, E, app_assoc, <- Hp. reflexivity. }
      apply encoding_prefix_unique in X; try assumption.
      destruct X as [_ X]. symmetry in X. apply app_eq_nil in X.
      destruct X as [_ X]. contradiction.
Qed.

(** A buffer on which [DecodeRune] reports an invalid encoding starts
    with the encoding of no scalar value. *)
Lemma invalid_head_no_encoding (buf : list byte) :
  utf8.DecodeRune buf = (utf8.RuneError, 1%nat) ->
  forall r, is_scalar r -> strings.HasPrefix buf (utf8_encoding r) = false.
Proof.
  intros D r Hr. destruct (strings.HasPrefix buf (utf8_encoding r)) eqn:E;
    [exfalso | reflexivity].
  apply HasPrefix_iff in E. destruct E as [rest ->].
  rewrite (DecodeRune_wf _ _ _ (encoding_wf_head r rest Hr)) in D.
  injection D as -> D. vm_compute in D. discriminate.
Qed.

(** The first byte of an encoding of more than one byte is neither the
    Escape byte nor a control byte. *)
Lemma encoding_split_value (r : Z) (c1 c2 : list byte) :
  utf8_encoding r = c1 ++ c2 -> c1 <> [] -> c2 <> [] -> 0x80 <= r.
Proof.
  intros E H1 H2. destruct (Z.lt_ge_cases r 0x80) as [Hlt|]; [exfalso | lia].
  unfold utf8_encoding in E. apply Z.ltb_lt in Hlt. rewrite Hlt in E.
  apply (f_equal (@length byte)) in E. rewrite length_app in E.
  destruct c1; [contradiction|]. destruct c2; [contradiction|].
  cbn [length] in E. lia.
Qed.

(** An encoding other than that of U+FFFD, whose first byte is neither
    the Escape byte nor a control byte, is extracted. *)
Lemma extract_event_encoding (r : Z) (rest : list byte) :
  is_scalar r -> 0x20 < r -> r <> 0x7F -> r <> utf8.RuneError ->
  extract_event keys (utf8_encoding r ++ rest) =
  (length (utf8_encoding r), [rune_event r]).
Proof.
  intros Hs H1 H2 H3. pose proof (encoding_wf_head r rest Hs) as W.
  destruct (wf_head_first _ _ _ W) as [b [t [E Hb]]].
  rewrite E in W |- *.
  destruct (rune_branch b) as [Hesc Hctl]; [lia | lia |].
  apply extract_event_wf; assumption.
Qed.

(** A head that is the encoding of no scalar value is not extracted. *)
Lemma extract_event_invalid (b : byte) (rest : list byte) :
  0x20 < byte_val b -> byte_val b <> 0x7F ->
  (forall r, is_scalar r ->
             strings.HasPrefix (b :: rest) (utf8_encoding r) = false) ->
  extract_event keys (b :: rest) = (0%nat, []).
Proof.
  intros H1 H2 Hno. destruct (rune_branch b H1 H2) as [Hesc Hctl].
  rewrite extract_event_rune by assumption.
  destruct (DecodeRune_cases (b :: rest)) as [[H _]|H].
  - rewrite H. reflexivity.
  - exfalso. destruct (wf_head_encoding _ _ _ H) as [Hs [_ Hp]].
    specialize (Hno _ Hs).
    assert (Ht : strings.HasPrefix (b :: rest)
                   (utf8_encoding (fst (utf8.DecodeRune (b :: rest)))) = true)
      by (apply HasPrefix_iff; eexists; exact Hp).
    rewrite Ht in Hno. discriminate.
Qed.

(** A rune split over two chunks: nothing after the first chunk, the
    character after the second. *)
Lemma feed_split_rune (r : Z) (c1 c2 : list byte) :
  is_scalar r -> r <> utf8.RuneError ->
  utf8_encoding r = c1 ++ c2 -> c1 <> [] -> c2 <> [] ->
  feed keys [c1] = Some (mkProducer c1 [] false) /\
  feed keys [c1; c2] = Some (mkProducer [] [rune_event r] false).
Proof.
  intros Hs Hr E H1 H2.
  pose proof (encoding_split_value r c1 c2 E H1 H2) as Hv.
  pose proof (extract_event_incomplete r c1 c2 Hs E H2) as X1.
  pose proof (extract_event_encoding r [] Hs) as X2.
  rewrite app_nil_r, E in X2.
  rewrite !feed_eq. cbn [map producer_loop].
  rewrite on_message_chunk. cbn [inbuf input_comm returned app].
  rewrite X1. cbn [fst snd skipn]. split; [reflexivity|].
  rewrite on_message_chunk. cbn [inbuf input_comm returned app].
  rewrite X2 by lia. cbn [fst snd]. rewrite skipn_all. reflexivity.
Qed.

(** ** The first event does not depend on the chunk boundaries *)

Lemma starts_with_esc_app (p q : list byte) :
  p <> [] -> starts_with_esc (p ++ q) = starts_with_esc p.
Proof.
  destruct p; [contradiction | reflexivity].
Qed.

Lemma first_event_chunks (chunks : list (list byte)) :
  forall buf,
    starts_with_esc (buf ++ concat chunks) = false ->
    extract_event keys buf = (0%nat, []) ->
    exists st,
      producer_loop keys (mkProducer buf [] false) (map chunk chunks) =
      Some st /\
      firstn 1 (input_comm st) =
      snd (extract_event keys (buf ++ concat chunks)).
Proof.
  induction chunks as [|c chunks IH]; intros buf Hesc Hx;
    cbn [map producer_loop concat] in *.
  - eexists. split; [reflexivity|]. rewrite app_nil_r, Hx. reflexivity.
  - rewrite on_message_chunk. cbn [inbuf input_comm returned app].
    rewrite app_assoc in Hesc |- *.
    destruct (extract_event_cases (buf ++ c)) as [X|[n [e X]]].
    + rewrite X. cbn [fst snd skipn]. apply IH; assumption.
    + assert (Hne : buf ++ c <> []).
      { intros Z0. rewrite Z0 in X. discriminate. }
      rewrite starts_with_esc_app in Hesc by assumption.
      rewrite (extract_event_extend _ (concat chunks) n e Hesc X).
      rewrite X. cbn [fst snd].
      destruct (producer_loop_total (map chunk chunks)
                  (mkProducer (skipn (S n) (buf ++ c)) [e] false))
        as [st [more [E [S _]]]].
      exists st. split; [assumption|]. rewrite S. reflexivity.
Qed.

(** Empty chunks on an empty buffer change nothing. *)
Lemma empty_chunks_loop (chunks : list (list byte)) :
  concat chunks = [] ->
  forall sent,
    producer_loop keys (mkProducer [] sent false) (map chunk chunks) =
    Some (mkProducer [] sent false).
Proof.
  induction chunks as [|c chunks IH]; intros E sent;
    cbn [map producer_loop concat] in *; [reflexivity|].
  apply app_eq_nil in E. destruct E as [-> E].
  rewrite on_message_chunk. cbn [inbuf input_comm returned app].
  cbn [extract_event fst snd skipn]. rewrite app_nil_r. apply IH, E.
Qed.

(** A frame that does not start with the Escape byte, split in any
    number of chunks: nothing is sent before the frame is complete, and
    its event is sent when it is. *)
Lemma single_frame_loop (whole : list byte) (e : keyEvent)
  (chunks : list (list byte)) :
  starts_with_esc whole = false ->
  extract_event keys whole = (length whole, [e]) ->
  forall buf,
    buf ++ concat chunks = whole ->
    concat chunks <> [] ->
    producer_loop keys (mkProducer buf [] false) (map chunk chunks) =
    Some (mkProducer [] [e] false).
Proof.
  intros Hesc Hw.
  induction chunks as [|c chunks IH]; intros buf E Hne;
    cbn [map producer_loop concat] in *; [contradiction|].
  rewrite on_message_chunk. cbn [inbuf input_comm returned app].
  rewrite app_assoc in E.
  destruct (concat chunks) as [|x xs] eqn:Ec.
  - rewrite app_nil_r in E. rewrite E, Hw. cbn [fst snd].
    rewrite skipn_all. apply empty_chunks_loop, Ec.
  - destruct (extract_event_cases (buf ++ c)) as [X|[n [e' X]]].
    + rewrite X. cbn [fst snd skipn]. apply IH; [exact E | discriminate].
    + exfalso.
      assert (Hne' : buf ++ c <> []).
      { intros Z0. rewrite Z0 in X. discriminate. }
      pose proof (extract_event_size_le (buf ++ c)) as Hle.
      rewrite X in Hle. cbn [fst] in Hle.
      assert (Hesc' : starts_with_esc (buf ++ c) = false).
      { rewrite <- (starts_with_esc_app (buf ++ c) (x :: xs)) by assumption.
        rewrite E. exact Hesc. }
      pose proof (extract_event_extend (buf ++ c) (x :: xs) n e' Hesc' X)
        as Y.
      rewrite E, Hw in Y. injection Y as Y _.
      apply (f_equal (@length byte)) in E. rewrite length_app in E.
      cbn [length] in E. lia.
Qed.

End Decoder.

(** * The claims of the specification *)

(** ** Control bytes *)

(** C4 (control-byte extraction).  For every non-empty buffer whose
    first byte is not 0x1B and has a value at most 0x20 (Space) or equal
    to 0x7F, the decoder sends exactly one key event, whose key field is
    that byte value, whose rune is 0 and whose error is nil, and returns
    size 1. *)
Theorem control_byte_extraction (keys : list (list byte)) (b : byte)
  (rest : list byte) :
  byte_val b <> 0x1B ->
  byte_val b <= 0x20 \/ byte_val b = 0x7F ->
  extract_event keys (b :: rest) = (1%nat, [mkKeyEvent (byte_val b) 0 None]).
Proof.
  intros Hesc Hctl. rewrite extract_event_control.
  - reflexivity.
  - apply Z.eqb_neq, Hesc.
  - unfold KeySpace, KeyBackspace2. apply orb_true_iff.
    destruct Hctl as [H|H]; [left; apply Z.leb_le | right; apply Z.eqb_eq];
      exact H.
Qed.

(** The input byte 0x03 yields exactly one event, with key Ctrl-C (0x03),
    rune 0 and no error, and one consumed byte. *)
Lemma control_byte_extraction_witness :
  byte_val x03 <> 0x1B /\
  (byte_val x03 <= 0x20 \/ byte_val x03 = 0x7F) /\
  extract_event rxvt_keys [x03] = (1%nat, [mkKeyEvent 0x03 0 None]) /\
  KeyCtrlC = 0x03.
Proof.
  assert (H1 : byte_val x03 <> 0x1B) by (vm_compute; discriminate).
  assert (H2 : byte_val x03 <= 0x20 \/ byte_val x03 = 0x7F)
    by (left; vm_compute; discriminate).
  split; [exact H1|]. split; [exact H2|].
  split; [|reflexivity].
  exact (control_byte_extraction rxvt_keys x03 [] H1 H2).
Defined.

(** ** Front truncation *)



(** ** Error termination *)

(** C8 (error termination).  When the assembler, still running after the
    messages [pre], receives an input event with a non-nil error, it
    sends exactly one more event, whose error field holds this error and
    whose key and rune are 0, and returns: whatever messages follow,
    nothing more is sent and the buffer is left as it was. *)
Theorem error_termination (keys : list (list byte)) (buf0 : list byte)
  (pre post : list message) (st : producer) (ev : input_event) (e : error) :
  inputEventsProducer keys buf0 pre = Some st ->
  returned st = false ->
  ierr ev = Some e ->
  inputEventsProducer keys buf0 (pre ++ Recv ev :: post) =
  Some (mkProducer (inbuf st) (input_comm st ++ [mkKeyEvent 0 0 (Some e)])
          true).
Proof.
  unfold inputEventsProducer. intros Hrun Hret Herr.
  destruct (extract_and_consume keys buf0 []) as [st0|]; [|discriminate].
  rewrite (producer_loop_app keys pre (Recv ev :: post) st0 st Hrun Hret).
  cbn [producer_loop on_message]. rewrite Herr. reflexivity.
Qed.

Lemma error_termination_witness :
  inputEventsProducer rxvt_keys []
    ([chunk [x61]] ++ Recv (mkInputEvent [x62] (Some (Errno 5)))
                   :: [chunk [x63]]) =
  Some (mkProducer []
          [mkKeyEvent 0 0x61 None; mkKeyEvent 0 0 (Some (Errno 5))] true).
Proof.
  apply (error_termination rxvt_keys [] [chunk [x61]] [chunk [x63]]
           (mkProducer [] [mkKeyEvent 0 0x61 None] false)
           (mkInputEvent [x62] (Some (Errno 5))) (Errno 5)).
  - vm_compute. reflexivity.
  - reflexivity.
  - reflexivity.
Defined.

(** ** One variant per event *)

Lemma one_variant_key (k : Key) : one_variant (mkKeyEvent k 0 None).
Proof.
  unfold one_variant, shapes, populated_fields, symbolic_key_shape,
    character_shape, failure_shape. cbn.
  split; [reflexivity|]. destruct (k =? 0); cbn; lia.
Qed.

Lemma one_variant_rune (r : Z) : r <> 0 -> one_variant (rune_event r).
Proof.
  intros Hr. unfold one_variant, shapes, populated_fields,
    symbolic_key_shape, character_shape, failure_shape.
  cbn [rune_event key rune err is_nil].
  destruct (Z.eqb_spec r 0); [contradiction|]. cbn. split; [reflexivity | lia].
Qed.

Lemma one_variant_err (e : error) : one_variant (err_event e).
Proof.
  unfold one_variant. cbn. split; [reflexivity | lia].
Qed.

Lemma Forall_one {A : Type} (P : A -> Prop) (x : A) : P x -> Forall P [x].
Proof.
  intros H. apply Forall_cons; [exact H | apply Forall_nil].
Qed.

Lemma extract_event_one_variant (keys : list (list byte)) (buf : list byte) :
  Forall one_variant (snd (extract_event keys buf)).
Proof.
  destruct buf as [|b rest]; [constructor|].
  destruct (byte_val b =? 0x1B) eqn:He.
  - apply Z.eqb_eq in He. change 27 with (byte_val ESC) in He.
    apply byte_val_inj in He. subst b. rewrite extract_event_esc.
    unfold parse_escape_sequence.
    pose proof (parse_from_event keys 0 (ESC :: rest)) as [Hr Hn].
    destruct (parse_escape_sequence_from keys 0 (ESC :: rest)) as [size ev].
    cbn [fst snd] in *.
    destruct (negb (size =? 0)%nat); cbn [snd]; apply Forall_one.
    + destruct ev as [k r x]. cbn [rune err] in *. subst r x.
      apply one_variant_key.
    + apply one_variant_key.
  - destruct ((byte_val b <=? KeySpace) || (byte_val b =? KeyBackspace2))
      eqn:Hc.
    + rewrite extract_event_control by assumption. cbn [snd].
      apply Forall_one, one_variant_key.
    + rewrite extract_event_rune by assumption.
      destruct (DecodeRune_cases (b :: rest)) as [[H _]|H].
      * rewrite H. constructor.
      * destruct (utf8.DecodeRune (b :: rest)) as [r n]. cbn [fst snd] in *.
        destruct (negb (r =? utf8.RuneError)); cbn [snd];
          [|apply Forall_nil].
        apply Forall_one, one_variant_rune.
        apply orb_false_iff in Hc. destruct Hc as [Hc1 _].
        apply Z.leb_gt in Hc1. unfold KeySpace in Hc1.
        destruct (wf_head_first _ _ _ H)
          as [b' [t' [Eb [[_ [-> _]]|[_ [? _]]]]]];
          [injection Eb as <- _|]; lia.
Qed.

Lemma producer_loop_one_variant (keys : list (list byte))
  (msgs : list message) :
  forall st, Forall one_variant (input_comm st) ->
    exists st', producer_loop keys st msgs = Some st' /\
                Forall one_variant (input_comm st').
Proof.
  induction msgs as [|m msgs IH]; intros st Hst; cbn [producer_loop].
  - exists st. auto.
  - assert (H1 : exists st1, on_message keys st m = Some st1 /\
                             Forall one_variant (input_comm st1)).
    { destruct m as [[d [e|]]|].
      - eexists. split; [reflexivity|]. cbn [input_comm].
        apply Forall_app. split; [assumption|].
        apply Forall_one, one_variant_err.
      - change (Recv (mkInputEvent d None)) with (chunk d).
        rewrite on_message_chunk. eexists. split; [reflexivity|].
        cbn [input_comm]. apply Forall_app. split; [assumption|].
        apply extract_event_one_variant.
      - eexists. split; [reflexivity | assumption]. }
    destruct H1 as [st1 [E1 F1]]. rewrite E1.
    destruct (returned st1); [exists st1; auto | apply IH, F1].
Qed.

(** C9 (one-variant invariant).  Every event the decoder sends, and every
    event the assembler has sent after any sequence of messages, has the
    shape of exactly one of the three variants (rune 0 and nil error for a
    symbolic key; non-zero rune, key 0 and nil error for a character;
    non-nil error, key 0 and rune 0 for a failure), and at most one of its
    three fields is populated.  The assembler never panics on the way. *)
Theorem one_variant_invariant :
  (forall keys buf, Forall one_variant (snd (extract_event keys buf))) /\
  (forall keys buf0 msgs,
     exists st, inputEventsProducer keys buf0 msgs = Some st /\
                Forall one_variant (input_comm st)).
Proof.
  split; [exact extract_event_one_variant|].
  intros keys buf0 msgs. unfold inputEventsProducer.
  rewrite extract_and_consume_eq.
  apply producer_loop_one_variant. cbn [input_comm app].
  apply extract_event_one_variant.
Qed.

(** ** The replacement character *)

Ltac byte_values :=
  unfold continuation;
  repeat match goal with
         | |- context [byte_val ?b] =>
           let v := eval vm_compute in (byte_val b) in
           change (byte_val b) with v
         end;
  lia.

Lemma replacement_wf_head (rest : list byte) :
  wf_head (xef :: xbf :: xbd :: rest) 0xFFFD 3.
Proof.
  eapply wf_head_eq; [apply wf_head3; byte_values | reflexivity].
Qed.

Lemma extract_event_replacement (keys : list (list byte)) (rest : list byte) :
  extract_event keys (xef :: xbf :: xbd :: rest) = (0%nat, []).
Proof.
  rewrite extract_event_rune by reflexivity.
  rewrite (DecodeRune_wf _ _ _ (replacement_wf_head rest)). reflexivity.
Qed.

Lemma extract_event_never_replacement (keys : list (list byte))
  (buf : list byte) :
  Forall (fun e => rune e <> utf8.RuneError) (snd (extract_event keys buf)).
Proof.
  destruct buf as [|b rest]; [constructor|].
  destruct (byte_val b =? 0x1B) eqn:He.
  - apply Z.eqb_eq in He. change 27 with (byte_val ESC) in He.
    apply byte_val_inj in He. subst b. rewrite extract_event_esc.
    unfold parse_escape_sequence.
    pose proof (parse_from_event keys 0 (ESC :: rest)) as [Hr _].
    destruct (parse_escape_sequence_from keys 0 (ESC :: rest)) as [size ev].
    cbn [fst snd] in *.
    destruct (negb (size =? 0)%nat); cbn [snd]; apply Forall_one.
    + rewrite Hr. discriminate.
    + discriminate.
  - destruct ((byte_val b <=? KeySpace) || (byte_val b =? KeyBackspace2))
      eqn:Hc.
    + rewrite extract_event_control by assumption. cbn [snd].
      apply Forall_one. discriminate.
    + rewrite extract_event_rune by assumption.
      destruct (Z.eqb_spec (fst (utf8.DecodeRune (b :: rest))) utf8.RuneError);
        cbn [negb snd]; [apply Forall_nil|].
      apply Forall_one. assumption.
Qed.

Lemma replacement_stuck (keys : list (list byte)) (chunks : list (list byte)) :
  forall rest sent,
    producer_loop keys (mkProducer (xef :: xbf :: xbd :: rest) sent false)
      (map chunk chunks) =
    Some (mkProducer (xef :: xbf :: xbd :: rest ++ concat chunks) sent false).
Proof.
  induction chunks as [|c chunks IH]; intros rest sent;
    cbn [map producer_loop concat].
  - rewrite app_nil_r. reflexivity.
  - rewrite on_message_chunk. cbn [inbuf input_comm returned app].
    rewrite extract_event_replacement. cbn [fst snd skipn].
    rewrite app_nil_r, IH, app_assoc. reflexivity.
Qed.

(** C10 (U+FFFD edge case).  [0xEF 0xBF 0xBD] is the well-formed encoding
    of the scalar value U+FFFD, which [DecodeRune] decodes with width 3;
    yet for every buffer with these bytes at its head the decoder sends no
    event and returns size 0, because the rune equals [utf8.RuneError].
    Hence no event the decoder sends ever carries U+FFFD, and once the
    three bytes are at the front of the buffer they stay there, with no
    event sent, whatever chunks arrive afterwards. *)
Theorem replacement_character_never_delivered :
  (is_scalar 0xFFFD /\ utf8_encoding 0xFFFD = [xef; xbf; xbd] /\
   forall rest,
     utf8.DecodeRune (xef :: xbf :: xbd :: rest) = (0xFFFD, 3%nat)) /\
  (forall keys rest,
     extract_event keys (xef :: xbf :: xbd :: rest) = (0%nat, [])) /\
  (forall keys buf,
     Forall (fun e => rune e <> 0xFFFD) (snd (extract_event keys buf))) /\
  (forall keys rest sent chunks,
     producer_loop keys (mkProducer (xef :: xbf :: xbd :: rest) sent false)
       (map chunk chunks) =
     Some (mkProducer (xef :: xbf :: xbd :: rest ++ concat chunks) sent false)).
Proof.
  split.
  { split; [unfold is_scalar; lia|]. split; [reflexivity|].
    intros rest. apply DecodeRune_wf, replacement_wf_head. }
  split; [exact extract_event_replacement|].
  split; [exact extract_event_never_replacement|].
  intros keys rest sent chunks. apply replacement_stuck.
Qed.

(** ** Escape sequences *)

(** C2, as the specification states it, fails: with the rxvt table the
    buffer ["\x1b["] has no entry as a prefix and can still be extended
    to ["\x1b[A"], yet the decoder does not wait: it sends Esc and
    returns size 1. *)
Lemma standalone_esc_waits_fails : ~ standalone_esc_waits rxvt_keys [x5b].
Proof.
  intros H. destruct H as [Hwait _].
  - repeat (apply Forall_cons; [reflexivity|]). apply Forall_nil.
  - assert (X : extension_could_match rxvt_keys [ESC; x5b]).
    { exists [ESC; x5b; x41]. split; [|reflexivity].
      unfold rxvt_keys. repeat (first [left; reflexivity | right]). }
    specialize (Hwait X). vm_compute in Hwait. discriminate.
Qed.

(** C2, amended (standalone Esc, at once).  When the buffer starts with
    0x1B and no key-table entry is a prefix of the buffer, the decoder
    sends a standalone Esc key event and returns size 1, whether or not
    an extension of the buffer could match a table entry. *)
Theorem standalone_esc_immediate (keys : list (list byte)) (rest : list byte) :
  Forall (fun k => strings.HasPrefix (ESC :: rest) k = false) keys ->
  extract_event keys (ESC :: rest) = (1%nat, [key_event KeyEsc]).
Proof.
  intros H. rewrite extract_event_esc. unfold parse_escape_sequence.
  rewrite parse_from_no_match by assumption. reflexivity.
Qed.

Lemma standalone_esc_immediate_witness :
  extension_could_match rxvt_keys [ESC; x5b] /\
  extract_event rxvt_keys [ESC; x5b] = (1%nat, [key_event KeyEsc]).
Proof.
  split.
  - exists [ESC; x5b; x41]. split; [|reflexivity].
    unfold rxvt_keys. repeat (first [left; reflexivity | right]).
  - apply (standalone_esc_immediate rxvt_keys [x5b]).
    repeat (apply Forall_cons; [reflexivity|]). apply Forall_nil.
Defined.

(** C3, as the specification states it, fails: in a table that holds
    ["\x1b["] before ["\x1b[A"], both entries are prefixes of the buffer
    ["\x1b[A"]; the decoder selects the first one, of length 2, not the
    longest. *)
Lemma longest_match_not_selected :
  ~ longest_match_selected overlapping_keys [x5b; x41].
Proof.
  intros H. destruct H as [i [k [_ [_ [Hlong [_ Hx]]]]]].
  - exists [ESC; x5b]. split; [left; reflexivity | reflexivity].
  - assert (Hl : (3 <= length k)%nat).
    { apply (Hlong [ESC; x5b; x41]); [right; left; reflexivity | reflexivity]. }
    change (extract_event overlapping_keys [ESC; x5b; x41])
      with (2%nat, [key_event KeyF1]) in Hx.
    injection Hx as Hk _. lia.
Qed.

(** C3, amended (first match in table order).  For every buffer that
    begins with 0x1B, the decoder selects the first entry in table order
    that is a prefix of the buffer, whether or not a later entry is a
    longer prefix; when that entry is not empty, the decoder sends the
    key [0xFFFF - i] for the entry's index [i] (as a [uint16]), with rune 0
    and no error, and returns the entry's length. *)
Theorem first_match_selected (pre post : list (list byte)) (k : list byte)
  (rest : list byte) :
  Forall (fun k' => strings.HasPrefix (ESC :: rest) k' = false) pre ->
  strings.HasPrefix (ESC :: rest) k = true ->
  k <> [] ->
  extract_event (pre ++ k :: post) (ESC :: rest) =
  (length k, [key_event (uint16 (0xFFFF - Z.of_nat (length pre)))]).
Proof.
  intros Hpre Hk Hne. rewrite extract_event_esc. unfold parse_escape_sequence.
  rewrite (parse_from_first_match pre post k 0 (ESC :: rest) Hpre Hk).
  cbn [fst snd Nat.add]. destruct k as [|c k]; [contradiction|]. reflexivity.
Qed.

Lemma first_match_selected_witness :
  extract_event overlapping_keys [ESC; x5b; x41] = (2%nat, [key_event KeyF1]) /\
  extract_event rxvt_keys [ESC; x5b; x41] = (3%nat, [key_event KeyArrowUp]).
Proof.
  split.
  - apply (first_match_selected [] [[ESC; x5b; x41]] [ESC; x5b] [x5b; x41]).
    + apply Forall_nil.
    + reflexivity.
    + discriminate.
  - apply (first_match_selected (firstn 18 rxvt_keys) (skipn 19 rxvt_keys)
             [ESC; x5b; x41] [x5b; x41]).
    + repeat (apply Forall_cons; [reflexivity|]). apply Forall_nil.
    + reflexivity.
    + discriminate.
Defined.

(** ** UTF-8 runes *)

(** The claim C5, as the specification states it, fails on the code at
    U+FFFD: it is a scalar value, the first byte 0xEF of its encoding is
    neither the Escape byte nor a control byte, and yet the decoder sends
    no character event for it. *)
Lemma every_scalar_extracted_fails :
  ~ every_scalar_extracted rxvt_keys 0xFFFD [].
Proof.
  intros H. unfold every_scalar_extracted in H.
  assert (X : extract_event rxvt_keys (utf8_encoding 0xFFFD ++ []) =
              (3%nat, [rune_event 0xFFFD])).
  { apply H; [unfold is_scalar; lia | lia | lia]. }
  vm_compute in X. discriminate.
Qed.

(** C5 (UTF-8 rune extraction), the code at the failing input.  U+FFFD
    is a scalar value whose 3-byte encoding [0xEF 0xBF 0xBD] starts with
    neither 0x1B nor a control byte, and [DecodeRune] decodes it with
    width 3; the claim asks for one character event with rune 0xFFFD and
    size 3, but for every table and every rest of the buffer the decoder
    sends nothing and returns 0.  For every other scalar value whose
    first byte is neither 0x1B nor a control byte, the decoder does what
    the claim says: one event with key 0, that rune and no error, and
    the length of the encoding as size. *)
Theorem replacement_character_not_extracted :
  (is_scalar 0xFFFD /\ utf8_encoding 0xFFFD = [xef; xbf; xbd] /\
   0x20 < byte_val xef /\ byte_val xef <> 0x7F /\
   forall rest,
     utf8.DecodeRune (utf8_encoding 0xFFFD ++ rest) = (0xFFFD, 3%nat)) /\
  (forall keys rest,
     extract_event keys (utf8_encoding 0xFFFD ++ rest) = (0%nat, []) /\
     extract_event keys (utf8_encoding 0xFFFD ++ rest) <>
     (3%nat, [mkKeyEvent 0 0xFFFD None])) /\
  (forall keys r rest,
     is_scalar r -> 0x20 < r -> r <> 0x7F -> r <> 0xFFFD ->
     extract_event keys (utf8_encoding r ++ rest) =
     (length (utf8_encoding r), [mkKeyEvent 0 r None])).
Proof.
  split; [|split].
  - split; [unfold is_scalar; lia|]. split; [reflexivity|].
    split; [vm_compute; reflexivity|]. split; [vm_compute; discriminate|].
    intros rest. change (utf8_encoding 0xFFFD) with [xef; xbf; xbd].
    apply DecodeRune_wf, replacement_wf_head.
  - intros keys rest. change (utf8_encoding 0xFFFD) with [xef; xbf; xbd].
    cbn [app]. rewrite extract_event_replacement.
    split; [reflexivity | discriminate].
  - intros keys r rest Hs H1 H2 H3.
    rewrite extract_event_encoding by assumption. reflexivity.
Qed.

(** The Euro sign U+20AC, [0xE2 0x82 0xAC], is extracted. *)
Lemma replacement_character_not_extracted_witness :
  extract_event rxvt_keys [xe2; x82; xac; x41] =
  (3%nat, [mkKeyEvent 0 0x20AC None]).
Proof.
  apply (proj2 (proj2 replacement_character_not_extracted)
           rxvt_keys 0x20AC [x41]).
  - unfold is_scalar. lia.
  - lia.
  - lia.
  - lia.
Defined.

(** ** One extraction per chunk *)

(** The claim C6, as the specification states it, fails on the code:
    after the chunk ["ab"] has been appended to an empty buffer and
    processed, the buffer holds ["b"], from which a further event can be
    extracted; it is not extracted before the next chunk arrives. *)
Lemma extraction_exhausted_fails :
  ~ extraction_exhausted rxvt_keys [] [x61; x62].
Proof.
  intros H. vm_compute in H. discriminate.
Qed.

(** C6 (extraction exhaustion), the code at the failing input.  A chunk
    that starts with two printable ASCII characters holds the bytes of
    two complete events; the claim asks for both events before the next
    chunk is processed, but the assembler, fed this chunk on an empty
    buffer, sends the first character only (key 0, the byte as rune, no
    error) and keeps the second character in the buffer, although one
    more extraction on that buffer would send it. *)
Theorem complete_event_left_in_buffer (keys : list (list byte))
  (b1 b2 : byte) (rest : list byte) :
  0x20 < byte_val b1 < 0x7F ->
  0x20 < byte_val b2 < 0x7F ->
  feed keys [b1 :: b2 :: rest] =
    Some (mkProducer (b2 :: rest) [mkKeyEvent 0 (byte_val b1) None] false) /\
  extract_event keys (b2 :: rest) =
    (1%nat, [mkKeyEvent 0 (byte_val b2) None]).
Proof.
  intros H1 H2.
  assert (X : forall b t, 0x20 < byte_val b < 0x7F ->
                extract_event keys (b :: t) =
                (1%nat, [mkKeyEvent 0 (byte_val b) None])).
  { intros b t Hb. destruct (rune_branch b) as [Hesc Hctl]; [lia | lia |].
    rewrite (extract_event_wf keys b t (byte_val b) 1 Hesc Hctl).
    - reflexivity.
    - apply wf_head1. lia.
    - unfold utf8.RuneError. lia. }
  split; [|apply X, H2].
  rewrite feed_eq. cbn [map producer_loop].
  rewrite on_message_chunk. cbn [inbuf input_comm returned app].
  rewrite (X b1 (b2 :: rest) H1). reflexivity.
Qed.

(** The chunk ["ab"]: ['a'] is sent, ["b"] stays in the buffer. *)
Lemma complete_event_left_in_buffer_witness :
  feed rxvt_keys [[x61; x62]] =
    Some (mkProducer [x62] [mkKeyEvent 0 0x61 None] false) /\
  extract_event rxvt_keys [x62] = (1%nat, [mkKeyEvent 0 0x62 None]).
Proof.
  apply (complete_event_left_in_buffer rxvt_keys x61 x62 []).
  - vm_compute. split; reflexivity.
  - vm_compute. split; reflexivity.
Defined.

(** ** Chunk boundaries *)

(** C1, as the specification states it, fails: with ["\x1b[A"] mapped to
    ArrowUp, the chunks ["\x1b["] and ["A"] send Esc first, after the
    first chunk alone, while ["\x1b[A"] as one chunk sends the single
    ArrowUp. *)
Lemma chunk_boundary_independence_fails :
  ~ chunk_boundary_independence rxvt_keys [[ESC; x5b]; [x41]].
Proof.
  intros H. vm_compute in H. discriminate.
Qed.

(** C1, amended (chunk boundaries and the Escape byte).  For every byte
    sequence that does not begin with 0x1B and every way of splitting it
    into chunks, feeding the chunks one at a time and feeding the whole
    concatenation as one chunk send the same first event, or both none;
    when the sequence is exactly one frame (the decoder consumes all of
    it for one event), both send exactly that event and leave the buffer
    empty; and however the bytes are split, the buffer is what is left of
    the concatenation after a front of it has been consumed.  For input
    that begins with 0x1B this fails, because the decoder does not wait
    for the rest of an escape sequence: with ["\x1b[A"] mapped to
    ArrowUp, ["\x1b[A"] delivered as one chunk sends the single ArrowUp
    event and leaves the buffer empty, whereas after the chunk ["\x1b["]
    alone the first event sent is already a standalone Esc, and it
    remains the first event when ["A"] is delivered next. *)
Theorem chunk_boundaries :
  (forall keys chunks,
     starts_with_esc (concat chunks) = false ->
     exists st st1,
       feed keys chunks = Some st /\
       feed keys [concat chunks] = Some st1 /\
       firstn 1 (input_comm st1) = firstn 1 (input_comm st)) /\
  (forall keys chunks e,
     starts_with_esc (concat chunks) = false ->
     extract_event keys (concat chunks) = (length (concat chunks), [e]) ->
     feed keys chunks = Some (mkProducer [] [e] false) /\
     feed keys [concat chunks] = Some (mkProducer [] [e] false)) /\
  (forall keys chunks,
     exists st consumed,
       feed keys chunks = Some st /\
       concat chunks = consumed ++ inbuf st) /\
  feed rxvt_keys [[ESC; x5b; x41]] =
    Some (mkProducer [] [mkKeyEvent KeyArrowUp 0 None] false) /\
  (exists st more,
     feed rxvt_keys [[ESC; x5b]] = Some st /\
     input_comm st = mkKeyEvent KeyEsc 0 None :: more) /\
  (exists st more,
     feed rxvt_keys [[ESC; x5b]; [x41]] = Some st /\
     input_comm st = mkKeyEvent KeyEsc 0 None :: more).
Proof.
  split; [|split; [|split]].
  - intros keys chunks Hesc.
    destruct (first_event_chunks keys chunks [] Hesc eq_refl) as [st [E F]].
    exists st. eexists. split; [rewrite feed_eq; exact E|].
    rewrite feed_eq. cbn [map producer_loop].
    rewrite on_message_chunk. cbn [inbuf input_comm returned app].
    split; [reflexivity|]. cbn [input_comm]. rewrite F.
    destruct (extract_event_cases keys (concat chunks)) as [X|[n [e X]]];
      cbn [app] in X |- *; rewrite X; reflexivity.
  - intros keys chunks e Hesc Hw.
    assert (Hne : concat chunks <> []).
    { intros Z0. rewrite Z0 in Hw. discriminate. }
    split.
    + rewrite feed_eq.
      apply (single_frame_loop keys (concat chunks) e chunks Hesc Hw []);
        [reflexivity | exact Hne].
    + rewrite feed_eq.
      apply (single_frame_loop keys (concat chunks) e [concat chunks] Hesc Hw
               []); cbn [concat]; rewrite app_nil_r; [reflexivity | exact Hne].
  - intros keys chunks. rewrite feed_eq.
    destruct (producer_loop_chunks keys chunks [] [])
      as [buf' [more [consumed [E [_ C]]]]].
    do 2 eexists. split; [exact E|]. exact C.
  - split; [vm_compute; reflexivity|]. split.
    + do 2 eexists. split; vm_compute; reflexivity.
    + do 2 eexists. split; vm_compute; reflexivity.
Qed.

(** A Euro sign followed by ['a'], split inside the Euro sign: the first
    event is the same as for the whole; the Euro sign alone, split in
    three: the same single event as for the whole. *)
Lemma chunk_boundaries_witness :
  (exists st st1,
     feed rxvt_keys [[xe2]; [x82; xac; x61]] = Some st /\
     feed rxvt_keys [concat [[xe2]; [x82; xac; x61]]] = Some st1 /\
     firstn 1 (input_comm st1) = firstn 1 (input_comm st)) /\
  feed rxvt_keys [[xe2]; [x82]; [xac]] =
    Some (mkProducer [] [mkKeyEvent 0 0x20AC None] false) /\
  feed rxvt_keys [concat [[xe2]; [x82]; [xac]]] =
    Some (mkProducer [] [mkKeyEvent 0 0x20AC None] false).
Proof.
  split.
  - apply (proj1 chunk_boundaries rxvt_keys [[xe2]; [x82; xac; x61]]).
    vm_compute. reflexivity.
  - apply (proj1 (proj2 chunk_boundaries) rxvt_keys [[xe2]; [x82]; [xac]]
             (mkKeyEvent 0 0x20AC None)).
    + vm_compute. reflexivity.
    + vm_compute. reflexivity.
Defined.

(** * Further properties of the decoder and of the assembler *)

(** ** Sizes and events of one extraction *)

(** X1.  Whatever the table and the buffer, [extract_event] returns a
    size that does not exceed the length of the buffer, sends at most one
    event, and returns 0 exactly when it sends nothing. *)
Theorem extract_event_bounds (keys : list (list byte)) (buf : list byte) :
  (fst (extract_event keys buf) <= length buf)%nat /\
  (length (snd (extract_event keys buf)) <= 1)%nat /\
  (fst (extract_event keys buf) = 0%nat <-> snd (extract_event keys buf) = []).
Proof.
  split; [apply extract_event_size_le|].
  destruct (extract_event_cases keys buf) as [E|[n [e E]]]; rewrite E;
    cbn [fst snd length].
  - split; [lia | split; reflexivity].
  - split; [lia | split; discriminate].
Qed.

(** ** The goroutine as a whole *)

(** X2.  [inputEventsProducer] never panics in its slice expressions,
    whatever buffer it starts with and whatever messages it receives, and
    it has sent at most one event for its start and one per message. *)
Theorem producer_never_panics (keys : list (list byte)) (buf0 : list byte)
  (msgs : list message) :
  exists st,
    inputEventsProducer keys buf0 msgs = Some st /\
    (length (input_comm st) <= 1 + length msgs)%nat.
Proof.
  unfold inputEventsProducer. rewrite extract_and_consume_eq.
  destruct (producer_loop_total keys msgs
              (mkProducer (skipn (fst (extract_event keys buf0)) buf0)
                          ([] ++ snd (extract_event keys buf0)) false))
    as [st [more [E [S L]]]].
  exists st. split; [exact E|]. rewrite S, length_app. cbn [input_comm app].
  destruct (extract_event_cases keys buf0) as [X|[n [e X]]]; rewrite X;
    cbn [snd length]; lia.
Qed.

(** X3.  When the goroutine, still running after the messages [pre],
    receives the quit signal, it returns without sending anything and
    leaves the buffer as it is; the messages that follow are not
    received. *)
Theorem quit_returns_silently (keys : list (list byte)) (buf0 : list byte)
  (pre post : list message) (st : producer) :
  inputEventsProducer keys buf0 pre = Some st ->
  returned st = false ->
  inputEventsProducer keys buf0 (pre ++ Quit :: post) =
  Some (mkProducer (inbuf st) (input_comm st) true).
Proof.
  unfold inputEventsProducer. intros Hrun Hret.
  destruct (extract_and_consume keys buf0 []) as [st0|]; [|discriminate].
  rewrite (producer_loop_app keys pre (Quit :: post) st0 st Hrun Hret).
  reflexivity.
Qed.

Lemma quit_returns_silently_witness :
  inputEventsProducer rxvt_keys []
    ([chunk [x61; x62]] ++ Quit :: [chunk [x63]]) =
  Some (mkProducer [x62] [rune_event 0x61] true).
Proof.
  apply (quit_returns_silently rxvt_keys [] [chunk [x61; x62]] [chunk [x63]]
           (mkProducer [x62] [rune_event 0x61] false)).
  - vm_compute. reflexivity.
  - reflexivity.
Defined.

(** X4.  Processing is incremental: when the goroutine is still running
    after the messages [pre], what it does on [pre ++ post] is what the
    loop does on [post] from the state reached, and the events sent for
    [pre] are a prefix of the events sent for [pre ++ post], which adds
    at most one event per message of [post]. *)
Theorem events_only_appended (keys : list (list byte)) (buf0 : list byte)
  (pre post : list message) (st : producer) :
  inputEventsProducer keys buf0 pre = Some st ->
  returned st = false ->
  inputEventsProducer keys buf0 (pre ++ post) = producer_loop keys st post /\
  exists st' more,
    inputEventsProducer keys buf0 (pre ++ post) = Some st' /\
    input_comm st' = input_comm st ++ more /\
    (length more <= length post)%nat.
Proof.
  unfold inputEventsProducer. intros Hrun Hret.
  destruct (extract_and_consume keys buf0 []) as [st0|]; [|discriminate].
  rewrite (producer_loop_app keys pre post st0 st Hrun Hret).
  split; [reflexivity|]. apply producer_loop_total.
Qed.

Lemma events_only_appended_witness :
  inputEventsProducer rxvt_keys [] ([chunk [x61; x62]] ++ [chunk [x63]]) =
  producer_loop rxvt_keys (mkProducer [x62] [rune_event 0x61] false)
    [chunk [x63]] /\
  exists st' more,
    inputEventsProducer rxvt_keys [] ([chunk [x61; x62]] ++ [chunk [x63]]) =
    Some st' /\
    input_comm st' = [rune_event 0x61] ++ more /\
    (length more <= length [chunk [x63]])%nat.
Proof.
  apply (events_only_appended rxvt_keys [] [chunk [x61; x62]] [chunk [x63]]
           (mkProducer [x62] [rune_event 0x61] false)).
  - vm_compute. reflexivity.
  - reflexivity.
Defined.

(** ** One frame per chunk *)

Lemma frames_loop (keys : list (list byte)) (chunks : list (list byte)) :
  Forall (fun c => exists e, extract_event keys c = (length c, [e])) chunks ->
  forall sent,
    producer_loop keys (mkProducer [] sent false) (map chunk chunks) =
    Some (mkProducer []
            (sent ++ flat_map (fun c => snd (extract_event keys c)) chunks)
            false).
Proof.
  intros H. induction H as [|c chunks [e Hc] _ IH]; intros sent;
    cbn [map producer_loop flat_map].
  - rewrite app_nil_r. reflexivity.
  - rewrite on_message_chunk. cbn [inbuf input_comm returned app].
    rewrite Hc. cbn [fst snd]. rewrite skipn_all, IH, <- app_assoc.
    reflexivity.
Qed.

(** X5.  When every chunk is exactly one frame (an extraction on the
    chunk alone sends an event and consumes the whole chunk), feeding the
    chunks sends the events of the chunks, one per chunk and in their
    order, and leaves the buffer empty. *)
Theorem one_frame_per_chunk (keys : list (list byte))
  (chunks : list (list byte)) :
  Forall (fun c => exists e, extract_event keys c = (length c, [e])) chunks ->
  feed keys chunks =
  Some (mkProducer []
          (flat_map (fun c => snd (extract_event keys c)) chunks) false).
Proof.
  intros H. rewrite feed_eq. apply (frames_loop keys chunks H []).
Qed.

Lemma one_frame_per_chunk_witness :
  feed rxvt_keys [[ESC; x5b; x41]; [x03]; [xe2; x82; xac]; [ESC]] =
  Some (mkProducer []
          [key_event KeyArrowUp; key_event KeyCtrlC; rune_event 0x20AC;
           key_event KeyEsc] false).
Proof.
  apply (one_frame_per_chunk rxvt_keys
           [[ESC; x5b; x41]; [x03]; [xe2; x82; xac]; [ESC]]).
  repeat (apply Forall_cons; [eexists; vm_compute; reflexivity|]).
  apply Forall_nil.
Defined.

(** ** The escape branch *)

(** The table splits at the first entry that is a prefix of the buffer,
    if there is one. *)
Lemma first_prefix_split (keys : list (list byte)) (buf : list byte) :
  Forall (fun k => strings.HasPrefix buf k = false) keys \/
  exists pre k post,
    keys = pre ++ k :: post /\
    Forall (fun k' => strings.HasPrefix buf k' = false) pre /\
    strings.HasPrefix buf k = true.
Proof.
  induction keys as [|k keys IH]; [left; apply Forall_nil|].
  destruct (strings.HasPrefix buf k) eqn:Hk.
  - right. exists [], k, keys. repeat split; [apply Forall_nil | exact Hk].
  - destruct IH as [IH|[pre [k' [post [E [Hpre Hk']]]]]].
    + left. apply Forall_cons; assumption.
    + right. exists (k :: pre), k', post. rewrite E.
      repeat split; [apply Forall_cons; assumption | exact Hk'].
Qed.

Lemma extract_event_empty_entry (pre post : list (list byte))
  (rest : list byte) :
  Forall (fun k' => strings.HasPrefix (ESC :: rest) k' = false) pre ->
  extract_event (pre ++ [] :: post) (ESC :: rest) =
  (1%nat, [key_event KeyEsc]).
Proof.
  intros Hpre. rewrite extract_event_esc. unfold parse_escape_sequence.
  rewrite (parse_from_first_match pre post [] 0 (ESC :: rest) Hpre eq_refl).
  reflexivity.
Qed.

Lemma extract_event_first_entry (pre post : list (list byte)) (k : list byte)
  (rest : list byte) :
  Forall (fun k' => strings.HasPrefix (ESC :: rest) k' = false) pre ->
  strings.HasPrefix (ESC :: rest) k = true ->
  k <> [] ->
  extract_event (pre ++ k :: post) (ESC :: rest) =
  (length k, [key_event (uint16 (0xFFFF - Z.of_nat (length pre)))]).
Proof.
  intros Hpre Hk Hne. rewrite extract_event_esc. unfold parse_escape_sequence.
  rewrite (parse_from_first_match pre post k 0 (ESC :: rest) Hpre Hk).
  cbn [fst snd Nat.add]. destruct k as [|c k]; [contradiction|]. reflexivity.
Qed.

(** X6.  An empty string in the key table hides every entry after it:
    when no entry before the empty one is a prefix of a buffer that
    starts with 0x1B, the decoder sends a standalone Esc and returns size
    1, even if a later entry is a prefix of the buffer. *)
Theorem empty_entry_hides_later_entries (pre post : list (list byte))
  (rest : list byte) :
  Forall (fun k' => strings.HasPrefix (ESC :: rest) k' = false) pre ->
  extract_event (pre ++ [] :: post) (ESC :: rest) =
  (1%nat, [key_event KeyEsc]).
Proof.
  exact (extract_event_empty_entry pre post rest).
Qed.

Lemma empty_entry_hides_later_entries_witness :
  strings.HasPrefix [ESC; x5b; x41] [ESC; x5b; x41] = true /\
  extract_event ([[ESC; x4f; x50]] ++ [] :: [[ESC; x5b; x41]])
    [ESC; x5b; x41] = (1%nat, [key_event KeyEsc]).
Proof.
  split; [reflexivity|].
  apply (empty_entry_hides_later_entries [[ESC; x4f; x50]] [[ESC; x5b; x41]]
           [x5b; x41]).
  apply Forall_cons; [reflexivity | apply Forall_nil].
Defined.

(** X7.  On a buffer that starts with 0x1B the decoder always sends
    exactly one event, and there are exactly three cases: no entry of the
    table is a prefix of the buffer, or the first entry that is one is
    empty, and the event is Esc with size 1; or the first entry that is a
    prefix is not empty, and the event is the key [0xFFFF - i] of its
    index [i] with the length of the entry as size. *)
Theorem escape_head_cases (keys : list (list byte)) (rest : list byte) :
  (Forall (fun k => strings.HasPrefix (ESC :: rest) k = false) keys /\
   extract_event keys (ESC :: rest) = (1%nat, [key_event KeyEsc])) \/
  (exists pre post,
     keys = pre ++ [] :: post /\
     Forall (fun k => strings.HasPrefix (ESC :: rest) k = false) pre /\
     extract_event keys (ESC :: rest) = (1%nat, [key_event KeyEsc])) \/
  (exists pre k post,
     keys = pre ++ k :: post /\ k <> [] /\
     Forall (fun k' => strings.HasPrefix (ESC :: rest) k' = false) pre /\
     strings.HasPrefix (ESC :: rest) k = true /\
     (1 <= length k <= length (ESC :: rest))%nat /\
     extract_event keys (ESC :: rest) =
     (length k, [key_event (uint16 (0xFFFF - Z.of_nat (length pre)))])).
Proof.
  destruct (first_prefix_split keys (ESC :: rest))
    as [Hno|[pre [k [post [E [Hpre Hk]]]]]].
  - left. split; [exact Hno|].
    rewrite extract_event_esc. unfold parse_escape_sequence.
    rewrite parse_from_no_match by assumption. reflexivity.
  - right. subst keys. destruct k as [|c k].
    + left. exists pre, post. repeat split; [exact Hpre|].
      apply extract_event_empty_entry, Hpre.
    + right. exists pre, (c :: k), post.
      repeat split; try assumption; try discriminate.
      * cbn [length]. lia.
      * apply HasPrefix_length, Hk.
      * apply extract_event_first_entry; [assumption | assumption |].
        discriminate.
Qed.

(** ** The keys of the table entries *)

Lemma function_key_of_index (i : nat) :
  (i < 22)%nat ->
  nth_error function_keys i = Some (uint16 (0xFFFF - Z.of_nat i)).
Proof.
  intros Hi. do 22 (destruct i as [|i]; [reflexivity|]). lia.
Qed.

(** X8.  The first 22 entries of the key table stand for the function-key
    constants in their declaration order: when the first entry that is a
    prefix of the buffer is the non-empty entry of index [i < 22], the
    event carries the [i]-th constant of [KeyF1 .. KeyArrowRight]. *)
Theorem table_index_is_function_key (pre post : list (list byte))
  (k : list byte) (rest : list byte) :
  (length pre < 22)%nat ->
  Forall (fun k' => strings.HasPrefix (ESC :: rest) k' = false) pre ->
  strings.HasPrefix (ESC :: rest) k = true ->
  k <> [] ->
  exists K,
    nth_error function_keys (length pre) = Some K /\
    extract_event (pre ++ k :: post) (ESC :: rest) = (length k, [key_event K]).
Proof.
  intros Hi Hpre Hk Hne. eexists. split; [apply function_key_of_index, Hi|].
  apply extract_event_first_entry; assumption.
Qed.

Lemma table_index_is_function_key_witness :
  exists K,
    nth_error function_keys 21 = Some K /\
    extract_event rxvt_keys [ESC; x5b; x43; x61] = (3%nat, [key_event K]).
Proof.
  apply (table_index_is_function_key (firstn 21 rxvt_keys) []
           [ESC; x5b; x43] [x5b; x43; x61]).
  - vm_compute. reflexivity.
  - repeat (apply Forall_cons; [reflexivity|]). apply Forall_nil.
  - reflexivity.
  - discriminate.
Defined.

Lemma parse_from_key_range (keys : list (list byte)) (buf : list byte) :
  forall i,
    Z.of_nat i + Z.of_nat (length keys) <= 0xFF80 ->
    fst (parse_escape_sequence_from keys i buf) <> 0%nat ->
    0x80 <= key (snd (parse_escape_sequence_from keys i buf)) <= 0xFFFF.
Proof.
  induction keys as [|k keys IH]; intros i Hlen Hsize;
    cbn [parse_escape_sequence_from length] in *.
  - cbn [fst] in Hsize. contradiction.
  - destruct (strings.HasPrefix buf k).
    + cbn [snd key]. unfold uint16.
      rewrite Z.mod_small by lia. lia.
    + apply IH; [lia | exact Hsize].
Qed.

(** X9.  With a key table of at most 65408 (0xFF80) entries, the
    conversion [Key(0xFFFF - i)] does not wrap into the control keys: the
    key of every event sent for a buffer that starts with 0x1B is either
    [KeyEsc] or lies between 0x80 and 0xFFFF, so it differs from every
    control-key value (at most 0x7F) other than Esc itself. *)
Theorem table_keys_avoid_control_keys (keys : list (list byte))
  (rest : list byte) :
  Z.of_nat (length keys) <= 0xFF80 ->
  Forall (fun e => key e = KeyEsc \/ 0x80 <= key e <= 0xFFFF)
         (snd (extract_event keys (ESC :: rest))).
Proof.
  intros Hlen. rewrite extract_event_esc. unfold parse_escape_sequence.
  pose proof (parse_from_key_range keys (ESC :: rest) 0%nat Hlen) as R.
  destruct (parse_escape_sequence_from keys 0 (ESC :: rest)) as [size ev].
  cbn [fst snd] in *. destruct size as [|size]; cbn [Nat.eqb negb snd].
  - apply Forall_one. left. reflexivity.
  - apply Forall_one. right. apply R. discriminate.
Qed.

Lemma table_keys_avoid_control_keys_witness :
  Forall (fun e => key e = KeyEsc \/ 0x80 <= key e <= 0xFFFF)
         (snd (extract_event rxvt_keys [ESC; x5b; x41])).
Proof.
  apply (table_keys_avoid_control_keys rxvt_keys [x5b; x41]).
  vm_compute. discriminate.
Defined.

(** ** Character events *)

(** X10.  A character event is always the decoding of the head of the
    buffer: when [extract_event] sends an event with a non-zero rune, the
    rune is a Unicode scalar value above 0x20, other than 0x7F and
    U+FFFD, the event has key 0 and no error, the returned size is the
    length of the UTF-8 encoding of the rune, and the buffer starts with
    that encoding. *)
Theorem character_event_is_decoded_head (keys : list (list byte))
  (buf : list byte) (n : nat) (e : keyEvent) :
  extract_event keys buf = (n, [e]) ->
  rune e <> 0 ->
  is_scalar (rune e) /\
  0x20 < rune e /\ rune e <> 0x7F /\ rune e <> 0xFFFD /\
  key e = 0 /\ err e = None /\
  n = length (utf8_encoding (rune e)) /\
  buf = utf8_encoding (rune e) ++ skipn n buf.
Proof.
  intros Hx Hr. destruct buf as [|b rest]; [discriminate|].
  destruct (byte_val b =? 0x1B) eqn:He.
  - exfalso. apply Z.eqb_eq in He. change 27 with (byte_val ESC) in He.
    apply byte_val_inj in He. subst b. rewrite extract_event_esc in Hx.
    unfold parse_escape_sequence in Hx.
    pose proof (parse_from_event keys 0 (ESC :: rest)) as [H0 _].
    destruct (parse_escape_sequence_from keys 0 (ESC :: rest)) as [size ev].
    cbn [fst snd] in *.
    destruct (negb (size =? 0)%nat); injection Hx as _ <-;
      [rewrite H0 in Hr | cbn in Hr]; contradiction.
  - destruct ((byte_val b <=? KeySpace) || (byte_val b =? KeyBackspace2))
      eqn:Hc.
    + exfalso. rewrite extract_event_control in Hx by assumption.
      injection Hx as _ <-. cbn in Hr. contradiction.
    + rewrite extract_event_rune in Hx by assumption.
      apply orb_false_iff in Hc. destruct Hc as [Hc1 Hc2].
      apply Z.leb_gt in Hc1. apply Z.eqb_neq in Hc2.
      unfold KeySpace in Hc1. unfold KeyBackspace2 in Hc2.
      destruct (DecodeRune_cases (b :: rest)) as [[H _]|H].
      * rewrite H in Hx. discriminate.
      * destruct (utf8.DecodeRune (b :: rest)) as [r m]. cbn [fst snd] in *.
        destruct (Z.eqb_spec r utf8.RuneError); [discriminate|].
        cbn [negb] in Hx. injection Hx as <- <-. cbn [rune key err rune_event].
        destruct (wf_head_encoding _ _ _ H) as [Hs [Hm Hp]].
        assert (Hv : 0x20 < r /\ r <> 0x7F).
        { destruct (wf_head_first _ _ _ H)
            as [b' [t' [Eb [[_ [Hv _]]|[_ [Hv _]]]]]];
            [injection Eb as <- _; subst r|]; lia. }
        unfold utf8.RuneError in *.
        split; [exact Hs|]. split; [lia|]. split; [lia|].
        split; [assumption|]. split; [reflexivity|]. split; [reflexivity|].
        split; [exact Hm | exact Hp].
Qed.

Lemma character_event_is_decoded_head_witness :
  is_scalar 0x20AC /\
  0x20 < 0x20AC /\ 0x20AC <> 0x7F /\ 0x20AC <> 0xFFFD /\
  0 = 0 /\ @None error = None /\
  3%nat = length (utf8_encoding 0x20AC) /\
  [xe2; x82; xac; x41] = utf8_encoding 0x20AC ++ skipn 3 [xe2; x82; xac; x41].
Proof.
  apply (character_event_is_decoded_head rxvt_keys [xe2; x82; xac; x41] 3
           (rune_event 0x20AC)).
  - vm_compute. reflexivity.
  - discriminate.
Defined.

(** ** Buffers from which nothing is ever extracted *)

(** Once no extension of the buffer yields an event, no chunk is ever
    decoded: the buffer collects the bytes of all the chunks. *)
Lemma wedged_loop (keys : list (list byte)) (chunks : list (list byte)) :
  forall buf sent,
    (forall ext, extract_event keys (buf ++ ext) = (0%nat, [])) ->
    producer_loop keys (mkProducer buf sent false) (map chunk chunks) =
    Some (mkProducer (buf ++ concat chunks) sent false).
Proof.
  induction chunks as [|c chunks IH]; intros buf sent Hw;
    cbn [map producer_loop concat].
  - rewrite app_nil_r. reflexivity.
  - rewrite on_message_chunk. cbn [inbuf input_comm returned].
    rewrite Hw. cbn [fst snd skipn]. rewrite app_nil_r, IH, app_assoc.
    + reflexivity.
    + intros ext. rewrite <- app_assoc. apply Hw.
Qed.

Lemma DecodeRune_invalid_first (b : byte) (rest : list byte) :
  0x80 <= byte_val b <= 0xC1 \/ 0xF5 <= byte_val b ->
  utf8.DecodeRune (b :: rest) = (utf8.RuneError, 1%nat).
Proof.
  intros Hb. unfold utf8.DecodeRune.
  classify (byte_val b); reflexivity.
Qed.

(** X11.  A byte that cannot start a UTF-8 sequence (0x80..0xC1 or
    0xF5..0xFF) at the head of the buffer blocks the decoder for good:
    no event is extracted from the buffer, whatever follows the byte and
    whatever chunks arrive later; the buffer only grows. *)
Theorem invalid_first_byte_blocks (keys : list (list byte)) (b : byte)
  (rest : list byte) (sent : list keyEvent) (chunks : list (list byte)) :
  0x80 <= byte_val b <= 0xC1 \/ 0xF5 <= byte_val b ->
  extract_event keys (b :: rest) = (0%nat, []) /\
  producer_loop keys (mkProducer (b :: rest) sent false) (map chunk chunks) =
  Some (mkProducer (b :: rest ++ concat chunks) sent false).
Proof.
  intros Hb.
  assert (Hw : forall ext,
             extract_event keys ((b :: rest) ++ ext) = (0%nat, [])).
  { intros ext. cbn [app].
    destruct (rune_branch b) as [Hesc Hctl]; [lia | lia |].
    rewrite extract_event_rune by assumption.
    rewrite DecodeRune_invalid_first by assumption. reflexivity. }
  split.
  - specialize (Hw []). rewrite app_nil_r in Hw. exact Hw.
  - apply (wedged_loop keys chunks (b :: rest) sent Hw).
Qed.

Lemma invalid_first_byte_blocks_witness :
  extract_event rxvt_keys [xff; x61] = (0%nat, []) /\
  producer_loop rxvt_keys (mkProducer [xff; x61] [] false)
    (map chunk [[x62]; [x03]]) =
  Some (mkProducer [xff; x61; x62; x03] [] false).
Proof.
  apply (invalid_first_byte_blocks rxvt_keys xff [x61] [] [[x62]; [x03]]).
  right. vm_compute. discriminate.
Defined.

(** A well-formed head lies within the first four bytes. *)
Lemma wf_head_shrink (p q : list byte) (r : Z) (n : nat) :
  (4 <= length p)%nat -> wf_head (p ++ q) r n -> wf_head p r n.
Proof.
  intros Hlen H.
  destruct p as [|a [|b [|c [|d p]]]]; cbn [length] in Hlen; try lia.
  cbn [app] in H. inversion H; subst; constructor; assumption.
Qed.

Lemma extract_event_stable (keys : list (list byte)) (buf ext : list byte) :
  (4 <= length buf)%nat ->
  extract_event keys buf = (0%nat, []) ->
  extract_event keys (buf ++ ext) = (0%nat, []).
Proof.
  intros Hlen Hx. destruct buf as [|b rest]; [cbn [length] in Hlen; lia|].
  cbn [app].
  destruct (byte_val b =? 0x1B) eqn:He.
  - exfalso. apply Z.eqb_eq in He. change 27 with (byte_val ESC) in He.
    apply byte_val_inj in He. subst b. rewrite extract_event_esc in Hx.
    destruct (fst (parse_escape_sequence keys (ESC :: rest))) as [|size];
      cbn [Nat.eqb negb] in Hx; discriminate.
  - destruct ((byte_val b <=? KeySpace) || (byte_val b =? KeyBackspace2))
      eqn:Hc.
    + rewrite extract_event_control in Hx by assumption. discriminate.
    + rewrite extract_event_rune in Hx |- * by assumption.
      destruct (DecodeRune_cases (b :: rest ++ ext)) as [[H _]|H].
      * rewrite H. reflexivity.
      * apply (wf_head_shrink (b :: rest) ext) in H; [|exact Hlen].
        rewrite (DecodeRune_wf _ _ _ H) in Hx. cbn [fst snd] in Hx.
        destruct (Z.eqb_spec (fst (utf8.DecodeRune (b :: rest ++ ext)))
                    utf8.RuneError); [reflexivity | discriminate].
Qed.

(** X12.  A buffer of at least four bytes from which nothing can be
    extracted stays that way: whatever chunks arrive, no event is sent
    any more and the buffer collects all their bytes. *)
Theorem four_byte_buffer_blocks (keys : list (list byte)) (buf : list byte)
  (sent : list keyEvent) (chunks : list (list byte)) :
  (4 <= length buf)%nat ->
  extract_event keys buf = (0%nat, []) ->
  producer_loop keys (mkProducer buf sent false) (map chunk chunks) =
  Some (mkProducer (buf ++ concat chunks) sent false).
Proof.
  intros Hlen Hx. apply wedged_loop.
  intros ext. apply extract_event_stable; assumption.
Qed.

Lemma four_byte_buffer_blocks_witness :
  producer_loop rxvt_keys (mkProducer [xe2; x41; x42; x43] [] false)
    (map chunk [[x82; xac]; [x03]]) =
  Some (mkProducer [xe2; x41; x42; x43; x82; xac; x03] [] false).
Proof.
  apply (four_byte_buffer_blocks rxvt_keys [xe2; x41; x42; x43] []
           [[x82; xac]; [x03]]).
  - simpl. lia.
  - vm_compute. reflexivity.
Defined.

(** ** A rune in any number of chunks *)

Lemma rune_chunks_loop (keys : list (list byte)) (r : Z)
  (chunks : list (list byte)) :
  is_scalar r -> 0x20 < r -> r <> 0x7F -> r <> 0xFFFD ->
  forall buf,
    buf ++ concat chunks = utf8_encoding r ->
    concat chunks <> [] ->
    producer_loop keys (mkProducer buf [] false) (map chunk chunks) =
    Some (mkProducer [] [rune_event r] false).
Proof.
  intros Hs H1 H2 H3.
  induction chunks as [|c chunks IH]; intros buf E Hne;
    cbn [map producer_loop concat] in *; [contradiction|].
  rewrite on_message_chunk. cbn [inbuf input_comm returned app].
  rewrite app_assoc in E.
  destruct (concat chunks) as [|x xs] eqn:Ec.
  - rewrite app_nil_r in E.
    pose proof (extract_event_encoding keys r [] Hs H1 H2 H3) as X.
    rewrite app_nil_r, <- E in X. rewrite X. cbn [fst snd].
    rewrite E at 2. rewrite E, skipn_all.
    apply empty_chunks_loop, Ec.
  - rewrite (extract_event_incomplete keys r (buf ++ c) (x :: xs) Hs);
      [|symmetry; exact E | discriminate].
    cbn [fst snd skipn]. apply IH; [exact E | discriminate].
Qed.

(** X13.  The bytes of one rune may arrive split in any way: for every
    scalar value above 0x20 other than 0x7F and U+FFFD, and every list of
    chunks (empty ones included) whose concatenation is the UTF-8
    encoding of the value, feeding the chunks sends exactly the one
    character event for the value and leaves the buffer empty. *)
Theorem rune_in_any_chunks (keys : list (list byte)) (r : Z)
  (chunks : list (list byte)) :
  is_scalar r -> 0x20 < r -> r <> 0x7F -> r <> 0xFFFD ->
  concat chunks = utf8_encoding r ->
  feed keys chunks = Some (mkProducer [] [rune_event r] false).
Proof.
  intros Hs H1 H2 H3 E. rewrite feed_eq.
  apply (rune_chunks_loop keys r chunks Hs H1 H2 H3 []); [exact E|].
  rewrite E. unfold utf8_encoding.
  repeat match goal with
         | |- context [if ?c then _ else _] => destruct c
         end; discriminate.
Qed.

Lemma rune_in_any_chunks_witness :
  feed rxvt_keys [[xf0]; []; [x9f; x98]; [x80]; []] =
  Some (mkProducer [] [rune_event 0x1F600] false).
Proof.
  apply (rune_in_any_chunks rxvt_keys 0x1F600
           [[xf0]; []; [x9f; x98]; [x80]; []]).
  - unfold is_scalar. lia.
  - lia.
  - lia.
  - lia.
  - vm_compute. reflexivity.
Defined.

(** * Properties of the raw-mode attributes *)

(** Equalities between flag words are proved bit by bit. *)
Ltac bits :=
  apply Z.bits_inj'; intros ?n ?Hn;
  repeat rewrite ?Z.land_spec, ?Z.ldiff_spec, ?Z.lor_spec, ?Z.bits_0;
  repeat match goal with
         | |- context [Z.testbit ?x ?n] =>
           let b := fresh "b" in
           generalize (Z.testbit x n); intros b
         end;
  repeat match goal with
         | b : bool |- _ => destruct b
         end;
  reflexivity.

(** ** Assignments to the control characters *)

Lemma set_index_length (a : list Z) (i : nat) (v : Z) :
  length (set_index a i v) = length a.
Proof.
  unfold set_index. destruct (Nat.ltb_spec i (length a)); [|reflexivity].
  rewrite length_app, length_firstn. cbn [length]. rewrite length_skipn. lia.
Qed.

Lemma nth_error_set_index (a : list Z) (i j : nat) (v : Z) :
  nth_error (set_index a i v) j =
  if (j =? i)%nat && (i <? length a)%nat then Some v else nth_error a j.
Proof.
  unfold set_index. destruct (Nat.ltb_spec i (length a)) as [Hi|Hi];
    [|rewrite andb_false_r; reflexivity].
  rewrite andb_true_r, nth_error_app, length_firstn, Nat.min_l by lia.
  destruct (Nat.eqb_spec j i) as [->|Hne].
  - rewrite Nat.ltb_irrefl, Nat.sub_diag. reflexivity.
  - destruct (Nat.ltb_spec j i) as [Hlt|Hge].
    + rewrite nth_error_firstn. apply Nat.ltb_lt in Hlt. rewrite Hlt.
      reflexivity.
    + destruct (j - i)%nat as [|d] eqn:Ed; [lia|]. cbn [nth_error].
      rewrite nth_error_skipn. f_equal. lia.
Qed.

(** ** What raw mode turns off *)

(** X14.  Whatever the attributes read from the terminal and whatever
    the values of the platform's constants, the attributes [initConsole]
    sets have every one of the input flags IGNBRK, BRKINT, PARMRK, ISTRIP,
    INLCR, IGNCR, ICRNL, IXON and of the local flags ECHO, ECHONL, ICANON,
    ISIG, IEXTEN off, and their character-size field and parity bit are
    those of CS8, whatever they were before. *)
Theorem raw_mode_flags_off (K : syscall_constants) (orig : syscall_Termios) :
  Forall (fun f => Z.land (Iflag (raw_tios K orig)) f = 0) (iflags_off K) /\
  Forall (fun f => Z.land (Lflag (raw_tios K orig)) f = 0) (lflags_off K) /\
  Z.land (Cflag (raw_tios K orig)) (syscall_CSIZE K) =
    Z.land (syscall_CS8 K) (syscall_CSIZE K) /\
  Z.land (Cflag (raw_tios K orig)) (syscall_PARENB K) =
    Z.land (syscall_CS8 K) (syscall_PARENB K).
Proof.
  unfold raw_tios, iflags_off, lflags_off, iflag_mask, lflag_mask, cflag_mask.
  cbn [Iflag Lflag Cflag].
  split; [|split; [|split]].
  - repeat (apply Forall_cons; [bits|]). apply Forall_nil.
  - repeat (apply Forall_cons; [bits|]). apply Forall_nil.
  - bits.
  - bits.
Qed.

(** ** What raw mode leaves alone *)

(** X15.  The attributes [initConsole] sets differ from the ones it read
    only where the code says so: the output flags, the line discipline
    and the speeds are unchanged, the array of control characters keeps
    its length and all its entries other than VMIN and VTIME, and every
    bit of the input, local and control flags outside the cleared masks
    (and outside CS8, for the control flags) keeps its value. *)
Theorem raw_mode_frame (K : syscall_constants) (orig : syscall_Termios) :
  Oflag (raw_tios K orig) = Oflag orig /\
  Line (raw_tios K orig) = Line orig /\
  Ispeed (raw_tios K orig) = Ispeed orig /\
  Ospeed (raw_tios K orig) = Ospeed orig /\
  length (Cc (raw_tios K orig)) = length (Cc orig) /\
  (forall j, j <> syscall_VMIN K -> j <> syscall_VTIME K ->
             nth_error (Cc (raw_tios K orig)) j = nth_error (Cc orig) j) /\
  (forall n, Z.testbit (iflag_mask K) n = false ->
             Z.testbit (Iflag (raw_tios K orig)) n =
             Z.testbit (Iflag orig) n) /\
  (forall n, Z.testbit (lflag_mask K) n = false ->
             Z.testbit (Lflag (raw_tios K orig)) n =
             Z.testbit (Lflag orig) n) /\
  (forall n, Z.testbit (cflag_mask K) n = false ->
             Z.testbit (syscall_CS8 K) n = false ->
             Z.testbit (Cflag (raw_tios K orig)) n =
             Z.testbit (Cflag orig) n).
Proof.
  unfold raw_tios. cbn [Oflag Line Ispeed Ospeed Cc Iflag Lflag Cflag].
  repeat (split; [reflexivity|]).
  split; [rewrite !set_index_length; reflexivity|].
  split.
  { intros j H1 H2. rewrite !nth_error_set_index.
    apply Nat.eqb_neq in H1, H2. rewrite H1, H2. reflexivity. }
  split; [|split].
  - intros n Hn.
    destruct (Z.neg_nonneg_cases n) as [Hneg|Hpos];
      [rewrite !Z.testbit_neg_r by assumption; reflexivity|].
    rewrite Z.ldiff_spec, Hn. apply andb_true_r.
  - intros n Hn.
    destruct (Z.neg_nonneg_cases n) as [Hneg|Hpos];
      [rewrite !Z.testbit_neg_r by assumption; reflexivity|].
    rewrite Z.ldiff_spec, Hn. apply andb_true_r.
  - intros n Hn Hcs.
    destruct (Z.neg_nonneg_cases n) as [Hneg|Hpos];
      [rewrite !Z.testbit_neg_r by assumption; reflexivity|].
    rewrite Z.lor_spec, Z.ldiff_spec, Hn, Hcs, orb_false_r.
    apply andb_true_r.
Qed.

(** On Linux, IUTF8 (bit 14 of the input flags) and the entry VINTR of
    the control characters stay as they were. *)
Lemma raw_mode_frame_witness :
  Z.testbit (Iflag (raw_tios linux_constants cooked_tios)) 14 =
    Z.testbit (Iflag cooked_tios) 14 /\
  nth_error (Cc (raw_tios linux_constants cooked_tios)) 0 =
    nth_error (Cc cooked_tios) 0.
Proof.
  pose proof (raw_mode_frame linux_constants cooked_tios)
    as [_ [_ [_ [_ [_ [Hcc [Hi _]]]]]]].
  split.
  - apply Hi. vm_compute. reflexivity.
  - apply Hcc; simpl; lia.
Defined.

(** ** The control characters of raw mode *)

(** X16.  When VMIN and VTIME are two different indices of the array of
    control characters, the attributes [initConsole] sets have
    [Cc[VMIN] = 1] and [Cc[VTIME] = 0]: a read waits for at least one
    byte, without a timeout. *)
Theorem raw_mode_control_characters (K : syscall_constants)
  (orig : syscall_Termios) :
  (syscall_VMIN K < length (Cc orig))%nat ->
  (syscall_VTIME K < length (Cc orig))%nat ->
  syscall_VMIN K <> syscall_VTIME K ->
  nth_error (Cc (raw_tios K orig)) (syscall_VMIN K) = Some 1 /\
  nth_error (Cc (raw_tios K orig)) (syscall_VTIME K) = Some 0.
Proof.
  intros Hmin Htime Hne. unfold raw_tios. cbn [Cc].
  rewrite !nth_error_set_index, !set_index_length.
  apply Nat.ltb_lt in Hmin, Htime. rewrite Hmin, Htime.
  rewrite !Nat.eqb_refl. apply Nat.eqb_neq in Hne. rewrite Hne.
  split; reflexivity.
Qed.

Lemma raw_mode_control_characters_witness :
  nth_error (Cc (raw_tios linux_constants cooked_tios)) 6 = Some 1 /\
  nth_error (Cc (raw_tios linux_constants cooked_tios)) 5 = Some 0.
Proof.
  apply (raw_mode_control_characters linux_constants cooked_tios).
  - simpl. lia.
  - simpl. lia.
  - simpl. lia.
Defined.

(** ** Raw mode applied twice *)

(** X17.  Computing the raw-mode attributes from attributes that are
    already the raw-mode ones changes nothing. *)
Theorem raw_mode_idempotent (K : syscall_constants) (orig : syscall_Termios) :
  raw_tios K (raw_tios K orig) = raw_tios K orig.
Proof.
  unfold raw_tios. cbn [Iflag Oflag Cflag Lflag Line Cc Ispeed Ospeed].
  f_equal.
  - unfold iflag_mask. bits.
  - unfold cflag_mask. bits.
  - unfold lflag_mask. bits.
  - apply nth_error_ext. intros j.
    rewrite !nth_error_set_index, !set_index_length.
    destruct (j =? syscall_VTIME K)%nat,
             (syscall_VTIME K <? length (Cc orig))%nat,
             (j =? syscall_VMIN K)%nat,
             (syscall_VMIN K <? length (Cc orig))%nat; reflexivity.
Qed.

(** ** The width of the flag words *)

Lemma fits_bits (w x : Z) :
  0 <= w -> 0 <= x < 2 ^ w ->
  forall n, w <= n -> Z.testbit x n = false.
Proof.
  intros Hw Hx n Hn. rewrite <- (Z.mod_small x (2 ^ w)) by assumption.
  apply Z.mod_pow2_bits_high. lia.
Qed.

Lemma bits_fit (w x : Z) :
  0 <= w -> 0 <= x ->
  (forall n, w <= n -> Z.testbit x n = false) ->
  0 <= x < 2 ^ w.
Proof.
  intros Hw Hx Hb. split; [assumption|].
  assert (E : x mod 2 ^ w = x).
  { apply Z.bits_inj'. intros n Hn.
    destruct (Z.lt_ge_cases n w) as [Hlt|Hge].
    - apply Z.mod_pow2_bits_low. assumption.
    - rewrite Z.mod_pow2_bits_high by lia. symmetry. apply Hb, Hge. }
  rewrite <- E. apply Z.mod_pos_bound. apply Z.pow_pos_nonneg; lia.
Qed.

(** X18.  The flag words stay within their width: when the flag words
    read from the terminal and the constant CS8 fit in [w] bits, so do the
    flag words [initConsole] sets, so the unsigned arithmetic of the code
    never wraps. *)
Theorem raw_mode_width (K : syscall_constants) (orig : syscall_Termios)
  (w : Z) :
  0 <= w ->
  0 <= Iflag orig < 2 ^ w ->
  0 <= Cflag orig < 2 ^ w ->
  0 <= Lflag orig < 2 ^ w ->
  0 <= syscall_CS8 K < 2 ^ w ->
  0 <= Iflag (raw_tios K orig) < 2 ^ w /\
  0 <= Cflag (raw_tios K orig) < 2 ^ w /\
  0 <= Lflag (raw_tios K orig) < 2 ^ w.
Proof.
  intros Hw HI HC HL H8. unfold raw_tios. cbn [Iflag Cflag Lflag].
  split; [|split].
  - apply bits_fit; [assumption | apply Z.ldiff_nonneg; lia |].
    intros n Hn. rewrite Z.ldiff_spec, (fits_bits w _ Hw HI n Hn).
    reflexivity.
  - apply bits_fit; [assumption | |].
    + apply Z.lor_nonneg. split; [apply Z.ldiff_nonneg|]; lia.
    + intros n Hn.
      rewrite Z.lor_spec, Z.ldiff_spec, (fits_bits w _ Hw HC n Hn),
        (fits_bits w _ Hw H8 n Hn). reflexivity.
  - apply bits_fit; [assumption | apply Z.ldiff_nonneg; lia |].
    intros n Hn. rewrite Z.ldiff_spec, (fits_bits w _ Hw HL n Hn).
    reflexivity.
Qed.

Lemma raw_mode_width_witness :
  0 <= Iflag (raw_tios linux_constants cooked_tios) < 2 ^ 32 /\
  0 <= Cflag (raw_tios linux_constants cooked_tios) < 2 ^ 32 /\
  0 <= Lflag (raw_tios linux_constants cooked_tios) < 2 ^ 32.
Proof.
  apply (raw_mode_width linux_constants cooked_tios 32).
  - lia.
  - simpl. lia.
  - simpl. lia.
  - simpl. lia.
  - simpl. lia.
Defined.

(** * The key constants and the branches of the decoder *)

Lemma control_keys_values (K : Z) :
  In K control_keys <-> 0 <= K <= 0x20 \/ K = 0x7F.
Proof.
  split.
  - intros H. unfold control_keys in H. cbn [In] in H.
    repeat (destruct H as [H|H]; [rewrite <- H; vm_compute; intuition
                                   discriminate|]).
    contradiction.
  - intros [H|H].
    + assert (E : K = 0 \/ K = 1 \/ K = 2 \/ K = 3 \/ K = 4 \/ K = 5 \/ K = 6
                  \/ K = 7 \/ K = 8 \/ K = 9 \/ K = 10 \/ K = 11 \/ K = 12
                  \/ K = 13 \/ K = 14 \/ K = 15 \/ K = 16 \/ K = 17 \/ K = 18
                  \/ K = 19 \/ K = 20 \/ K = 21 \/ K = 22 \/ K = 23 \/ K = 24
                  \/ K = 25 \/ K = 26 \/ K = 27 \/ K = 28 \/ K = 29 \/ K = 30
                  \/ K = 31 \/ K = 32) by lia.
      repeat (destruct E as [E|E];
              [subst K; cbn; repeat (first [left; reflexivity | right])|]).
      subst K. cbn. repeat (first [left; reflexivity | right]).
    + subst K. cbn. repeat (first [left; reflexivity | right]).
Qed.

(** X19.  The named control-key constants are exactly the values 0x00 to
    0x20 and 0x7F, and none of them is a function-key constant.  For
    every byte other than 0x1B, the value of the byte is one of these
    constants exactly when [extract_event] sends it as a key event with
    that key, rune 0 and no error, and returns size 1.  The byte 0x1B,
    whose value is the constant [KeyEsc], is the exception: it goes
    through the escape branch, which may send the key of a table entry
    instead. *)
Theorem control_key_constants :
  (forall K, In K control_keys <-> 0 <= K <= 0x20 \/ K = 0x7F) /\
  (forall K, In K control_keys -> ~ In K function_keys) /\
  (forall keys b rest,
     byte_val b <> 0x1B ->
     (In (byte_val b) control_keys <->
      extract_event keys (b :: rest) =
      (1%nat, [mkKeyEvent (byte_val b) 0 None]))) /\
  (In (byte_val ESC) control_keys /\
   extract_event rxvt_keys [ESC; x5b; x41] <>
   (1%nat, [mkKeyEvent (byte_val ESC) 0 None])).
Proof.
  split; [exact control_keys_values|]. split; [|split].
  - intros K HK HF. apply control_keys_values in HK.
    unfold function_keys in HF. cbn [In] in HF.
    repeat (destruct HF as [HF|HF]; [vm_compute in HF; lia|]).
    contradiction.
  - intros keys b rest Hesc. rewrite control_keys_values.
    pose proof (byte_val_range b) as Hr.
    apply Z.eqb_neq in Hesc.
    destruct ((byte_val b <=? KeySpace) || (byte_val b =? KeyBackspace2))
      eqn:Hc.
    + rewrite extract_event_control by assumption.
      apply orb_true_iff in Hc. rewrite Z.leb_le, Z.eqb_eq in Hc.
      unfold KeySpace, KeyBackspace2 in Hc.
      split; [reflexivity | lia].
    + rewrite extract_event_rune by assumption.
      apply orb_false_iff in Hc. destruct Hc as [Hc1 Hc2].
      apply Z.leb_gt in Hc1. apply Z.eqb_neq in Hc2.
      unfold KeySpace in Hc1. unfold KeyBackspace2 in Hc2.
      split; [lia|]. intros X. exfalso.
      destruct (negb (fst (utf8.DecodeRune (b :: rest)) =? utf8.RuneError));
        [|discriminate].
      injection X as _ X _. unfold rune_event in X. lia.
  - split; [vm_compute; repeat (first [left; reflexivity | right])|].
    vm_compute. discriminate.
Qed.

(** The byte 0x0D is sent as [KeyEnter], which is no function key. *)
Lemma control_key_constants_witness :
  extract_event rxvt_keys [x0d; x61] = (1%nat, [mkKeyEvent KeyEnter 0 None]) /\
  ~ In KeyEnter function_keys.
Proof.
  pose proof control_key_constants as [Hv [Hf [Hx _]]].
  assert (Hin : In KeyEnter control_keys)
    by (apply Hv; left; vm_compute; split; discriminate).
  split.
  - apply (proj1 (Hx rxvt_keys x0d [x61] ltac:(vm_compute; discriminate))).
    exact Hin.
  - apply Hf, Hin.
Defined.
